(** * Seat booking service (node4.3.js): the lock lifecycle of a seat

    A shallow embedding of the in-memory seat store, of [releaseLock], of the
    four request handlers ([POST /lock/:id], [POST /confirm/:id],
    [POST /unlock/:id], [GET /seats]) and of the expiry callback that
    [setTimeout] runs, followed by the properties of the lock state machine. *)

From stdpp Require Import base decidable option strings pretty gmap fin_maps.
From Stdlib Require Import ZArith Lia.

Local Open Scope Z_scope.

(** ** Values of the request body *)

(** [req.body?.userId] after [bodyParser.json()]: absent, [null], a boolean,
    a number, a string, or an object/array.  The handlers only test it for
    truthiness ([!userId]), store it, and compare it with [!==].  Numbers are
    taken at integer values; an object is identified by its reference. *)
Inductive jsval : Type :=
  | JUndefined
  | JNull
  | JBool (b : bool)
  | JNum (n : Z)
  | JStr (s : string)
  | JObj (ref : nat).

Global Instance jsval_eq_dec : EqDecision jsval.
Proof. solve_decision. Defined.

(** JavaScript truthiness: [undefined], [null], [false], [0] and the empty
    string are falsy. *)
Definition truthy (v : jsval) : bool :=
  match v with
  | JUndefined | JNull => false
  | JBool b => b
  | JNum n => negb (n =? 0)
  | JStr s => negb (bool_decide (s = ""%string))
  | JObj _ => true
  end.

(** [a === b] on the values above. *)
Definition strict_eq (a b : jsval) : bool := bool_decide (a = b).

(** ** The seat store *)

Inductive Status : Type := Available | Locked | Booked.

Global Instance Status_eq_dec : EqDecision Status.
Proof. solve_decision. Defined.

(** Handle of a pending [setTimeout]. *)
Definition TimeoutObject : Type := nat.

(** One entry of [seats]; [lockOwner], [lockExpiresAt] and [timer] are
    [null] when unset. *)
Record Seat : Type := mkSeat {
  status : Status;
  lockOwner : jsval;
  lockExpiresAt : option Z;
  timer : option TimeoutObject;
}.

Global Instance Seat_eq_dec : EqDecision Seat.
Proof. solve_decision. Defined.

(** The process state: the [seats] object, and the timers of the event loop
    that were scheduled and neither cleared nor run.  A pending timer records
    the [seatId] its callback closes over and the time it is due. *)
Record State : Type := mkState {
  seats : gmap string Seat;
  timers : gmap TimeoutObject (string * Z);
  next_timer : TimeoutObject;
}.

Definition LOCK_TTL_MS : Z := 60 * 1000.
Definition SEAT_COUNT : nat := 10.

Definition fresh_seat : Seat := mkSeat Available JNull None None.

(** [for (let i = 1; i <= SEAT_COUNT; i++) seats[i] = {...}]: the property
    key of the number [i] is its decimal string. *)
Definition init_seats : gmap string Seat :=
  foldl (fun m i => <[pretty i := fresh_seat]> m) ∅ (seq 1 SEAT_COUNT).

Definition init : State := mkState init_seats ∅ 0%nat.

(** [seats] is a plain object literal, so [seats[k]] also finds what the
    object inherits from [Object.prototype]: a function (or, for
    [__proto__], the prototype object), truthy and with no [status] and no
    [timer] property. *)
Definition object_prototype_keys : list string :=
  [ "constructor"; "__defineGetter__"; "__defineSetter__"; "hasOwnProperty";
    "__lookupGetter__"; "__lookupSetter__"; "isPrototypeOf";
    "propertyIsEnumerable"; "toString"; "valueOf"; "__proto__";
    "toLocaleString" ]%string.

Inductive slot : Type :=
  | Own (s : Seat)      (* a seat record *)
  | Inherited           (* a member of Object.prototype *)
  | Undefined.          (* undefined *)

(** [seats[seatId]] *)
Definition seat_at (st : State) (seatId : string) : slot :=
  match seats st !! seatId with
  | Some s => Own s
  | None =>
      if bool_decide (seatId ∈ object_prototype_keys) then Inherited
      else Undefined
  end.

(** Writing the fields of the record stored under [seatId]. *)
Definition set_seat (seatId : string) (s : Seat) (st : State) : State :=
  mkState (<[seatId := s]> (seats st)) (timers st) (next_timer st).

(** [clearTimeout(t)] *)
Definition clearTimeout (t : TimeoutObject) (st : State) : State :=
  mkState (seats st) (delete t (timers st)) (next_timer st).

(** [setTimeout(callback, LOCK_TTL_MS)] at time [now], where the callback
    closes over [seatId]; returns the new handle. *)
Definition setTimeout (seatId : string) (now : Z) (st : State)
  : TimeoutObject * State :=
  (next_timer st,
   mkState (seats st)
           (<[next_timer st := (seatId, now + LOCK_TTL_MS)]> (timers st))
           (S (next_timer st))).

(** [if (s.timer) { clearTimeout(s.timer); s.timer = null; }] on the record
    under [seatId]. *)
Definition clear_seat_timer (seatId : string) (s : Seat) (st : State)
  : Seat * State :=
  match timer s with
  | Some t =>
      let s' := mkSeat (status s) (lockOwner s) (lockExpiresAt s) None in
      (s', set_seat seatId s' (clearTimeout t st))
  | None => (s, st)
  end.

(** [releaseLock(seatId)] *)
Definition releaseLock (seatId : string) (st : State) : State :=
  match seat_at st seatId with
  | Undefined => st                               (* if (!s) return; *)
  | Inherited => st               (* no timer, status is not 'locked' *)
  | Own s =>
      let '(s1, st1) := clear_seat_timer seatId s st in
      match status s1 with
      | Locked => set_seat seatId (mkSeat Available JNull None (timer s1)) st1
      | _ => st1
      end
  end.

(** ** Responses *)

(** The error kinds of the service.  [CannotBeLocked] is the response of
    line 87 ("cannot be locked (status: ...)"). *)
Inductive error : Type :=
  | InvalidRequest | NotFound | AlreadyBooked | Conflict | CannotBeLocked
  | NotLocked | Forbidden | Expired.

(** [res.json(...)] (status 200; [lockExpiresAt] is present in the body of a
    successful lock only) or [res.status(code).json(...)]. *)
Inductive response : Type :=
  | Ok200 (expires : option Z)
  | Fail (code : Z) (kind : error).

(** ** The handlers *)

(** [seat.lockExpiresAt && seat.lockExpiresAt <= now]: a number is truthy
    when it is not [0]. *)
Definition lapsed (e : option Z) (now : Z) : bool :=
  match e with
  | Some t => negb (t =? 0) && (t <=? now)
  | None => false
  end.

(** [!seat.lockExpiresAt || seat.lockExpiresAt <= Date.now()] *)
Definition expired (e : option Z) (now : Z) : bool :=
  match e with
  | Some t => (t =? 0) || (t <=? now)
  | None => true
  end.

(** [seat.status] of what [seats[seatId]] returned; [None] is [undefined]. *)
Definition slot_status (sl : slot) : option Status :=
  match sl with
  | Own s => Some (status s)
  | _ => None
  end.

(** Lines 85-109 of [POST /lock/:id], run on the store as [releaseLock] may
    have left it: [seat] is the same object that [releaseLock] mutated.
    [now] is the value of the [Date.now()] of line 92. *)
Definition acquire (seatId : string) (userId : jsval) (now : Z) (st : State)
  : response * State :=
  match seat_at st seatId with
  | Own seat =>
      match status seat with
      | Available =>
          let seat1 :=
            mkSeat Locked userId (Some (now + LOCK_TTL_MS)) (timer seat) in
          let '(seat2, st2) :=
            clear_seat_timer seatId seat1 (set_seat seatId seat1 st) in
          let '(t, st3) := setTimeout seatId now st2 in
          let seat3 :=
            mkSeat (status seat2) (lockOwner seat2) (lockExpiresAt seat2)
                   (Some t) in
          (Ok200 (lockExpiresAt seat3), set_seat seatId seat3 st3)
      | _ => (Fail 400 CannotBeLocked, st)
      end
  | _ => (Fail 400 CannotBeLocked, st)           (* status is undefined *)
  end.

(** [POST /lock/:id] with [seatId = req.params.id] and
    [userId = req.body?.userId].  [now] is the clock read at line 76 (only
    read when the seat is locked), [now'] the one read at line 92. *)
Definition lock (seatId : string) (userId : jsval) (now now' : Z) (st : State)
  : response * State :=
  if negb (truthy userId) then (Fail 400 InvalidRequest, st)
  else
    match seat_at st seatId with
    | Undefined => (Fail 404 NotFound, st)
    | Inherited =>                  (* status is undefined: lines 69-83 pass *)
        acquire seatId userId now' st
    | Own seat =>
        match status seat with
        | Booked => (Fail 400 AlreadyBooked, st)
        | Locked =>
            if lapsed (lockExpiresAt seat) now
            then acquire seatId userId now' (releaseLock seatId st)
            else (Fail 409 Conflict, st)
        | Available => acquire seatId userId now' st
        end
    end.

(** [POST /confirm/:id] *)
Definition confirm (seatId : string) (userId : jsval) (now : Z) (st : State)
  : response * State :=
  if negb (truthy userId) then (Fail 400 InvalidRequest, st)
  else
    match seat_at st seatId with
    | Undefined => (Fail 404 NotFound, st)
    | Inherited => (Fail 400 NotLocked, st)      (* status is undefined *)
    | Own seat =>
        match status seat with
        | Booked => (Fail 400 AlreadyBooked, st)
        | Available => (Fail 400 NotLocked, st)
        | Locked =>
            if negb (strict_eq (lockOwner seat) userId)
            then (Fail 403 Forbidden, st)
            else if expired (lockExpiresAt seat) now
            then (Fail 400 Expired, releaseLock seatId st)
            else
              let '(seat1, st1) := clear_seat_timer seatId seat st in
              (Ok200 None,
               set_seat seatId (mkSeat Booked JNull None (timer seat1)) st1)
        end
    end.

(** [POST /unlock/:id] *)
Definition unlock (seatId : string) (userId : jsval) (st : State)
  : response * State :=
  if negb (truthy userId) then (Fail 400 InvalidRequest, st)
  else
    match seat_at st seatId with
    | Undefined => (Fail 404 NotFound, st)
    | Inherited => (Fail 400 NotLocked, st)      (* status is undefined *)
    | Own seat =>
        match status seat with
        | Locked =>
            if negb (strict_eq (lockOwner seat) userId)
            then (Fail 403 Forbidden, st)
            else (Ok200 None, releaseLock seatId st)
        | _ => (Fail 400 NotLocked, st)
        end
    end.

(** What [GET /seats] shows of one seat: no [timer] field. *)
Record SeatView : Type := mkSeatView {
  view_status : Status;
  view_lockOwner : jsval;
  view_lockExpiresAt : option Z;
}.

Definition view (s : Seat) : SeatView :=
  mkSeatView (status s)
    (match status s with Locked => lockOwner s | _ => JNull end)
    (match status s with Locked => lockExpiresAt s | _ => None end).

(** [GET /seats]: one view per own entry of [seats]. *)
Definition snapshot (st : State) : gmap string SeatView * State :=
  (view <$> seats st, st).

(** The function given to [setTimeout] at line 101, for the [seatId] it
    closes over. *)
Definition expiry_callback (seatId : string) (st : State) : State :=
  match slot_status (seat_at st seatId) with
  | Some Locked => releaseLock seatId st
  | _ => st
  end.

(** The event loop runs the pending timer [t] at time [now]: nothing happens
    unless [t] is pending and due; a timer that runs is no longer pending. *)
Definition fire (t : TimeoutObject) (now : Z) (st : State) : State :=
  match timers st !! t with
  | Some (seatId, due) =>
      if due <=? now then expiry_callback seatId (clearTimeout t st) else st
  | None => st
  end.

(** ** Runs of the service *)

Inductive event : Type :=
  | ELock (seatId : string) (userId : jsval) (now now' : Z)
  | EConfirm (seatId : string) (userId : jsval) (now : Z)
  | EUnlock (seatId : string) (userId : jsval)
  | ESnapshot
  | EFire (t : TimeoutObject) (now : Z).

Definition step (st : State) (e : event) : State :=
  match e with
  | ELock seatId userId now now' => snd (lock seatId userId now now' st)
  | EConfirm seatId userId now => snd (confirm seatId userId now st)
  | EUnlock seatId userId => snd (unlock seatId userId st)
  | ESnapshot => snd (snapshot st)
  | EFire t now => fire t now st
  end.

Definition run (st : State) (es : list event) : State := foldl step st es.

(** The states the service can be in. *)
Inductive reachable : State -> Prop :=
  | reachable_init : reachable init
  | reachable_step st e : reachable st -> reachable (step st e).

(** ** What the properties are stated with *)

(** The fields of a seat once [releaseLock] has run on it. *)
Definition released (s : Seat) : Seat :=
  match status s with
  | Locked => mkSeat Available JNull None None
  | _ => mkSeat (status s) (lockOwner s) (lockExpiresAt s) None
  end.

(** The pending timers once the handle stored in a seat, if any, is cleared. *)
Definition cancel (t : option TimeoutObject)
  (tm : gmap TimeoutObject (string * Z)) : gmap TimeoutObject (string * Z) :=
  match t with
  | Some h => delete h tm
  | None => tm
  end.

(** The data-model invariant of one seat: owner and expiry are both set
    exactly when the seat is locked, and both [null] otherwise; the owner of
    a locked seat is a truthy value. *)
Definition seat_ok (s : Seat) : Prop :=
  (status s = Available \/ status s = Locked \/ status s = Booked) /\
  (status s = Locked <-> lockOwner s <> JNull /\ lockExpiresAt s <> None) /\
  (status s <> Locked -> lockOwner s = JNull /\ lockExpiresAt s = None) /\
  (status s = Locked -> truthy (lockOwner s) = true).

Definition state_ok (st : State) : Prop :=
  forall seatId s, seats st !! seatId = Some s -> seat_ok s.

(** ** The moves of one seat *)

(** Every change the service makes to a seat record is one of these. *)
Inductive seat_move : Seat -> Seat -> Prop :=
  | move_lock s userId e t :
      status s <> Booked -> truthy userId = true ->
      seat_move s (mkSeat Locked userId (Some e) (Some t))
  | move_release s :
      status s = Locked -> seat_move s fresh_seat
  | move_book s :
      status s = Locked -> seat_move s (mkSeat Booked JNull None None).

(** ** Seats and their pending timers *)

(** A locked seat stores the handle of a pending timer that is due at the
    seat's [lockExpiresAt]; no other seat stores a handle; every pending
    timer is the one stored in the locked seat it was scheduled for. *)
Definition timers_ok (st : State) : Prop :=
  (forall seatId s, seats st !! seatId = Some s ->
     match status s with
     | Locked => exists t e, timer s = Some t /\ lockExpiresAt s = Some e /\
                   timers st !! t = Some (seatId, e)
     | _ => timer s = None
     end) /\
  (forall t seatId due, timers st !! t = Some (seatId, due) ->
     (t < next_timer st)%nat /\
     exists s, seats st !! seatId = Some s /\ status s = Locked /\
       timer s = Some t).

(** The shapes of a state change. *)
Inductive transition (st : State) : State -> Prop :=
  | tr_stay : transition st st
  | tr_acquire seatId s userId now :
      seats st !! seatId = Some s -> status s <> Booked ->
      truthy userId = true ->
      transition st
        (mkState
           (<[seatId := mkSeat Locked userId (Some (now + LOCK_TTL_MS))
                          (Some (next_timer st))]> (seats st))
           (<[next_timer st := (seatId, now + LOCK_TTL_MS)]>
              (cancel (timer s) (timers st)))
           (S (next_timer st)))
  | tr_leave seatId s s' :
      seats st !! seatId = Some s -> status s = Locked ->
      s' = fresh_seat \/ s' = mkSeat Booked JNull None None ->
      transition st
        (mkState (<[seatId := s']> (seats st))
                 (cancel (timer s) (timers st)) (next_timer st)).

(** ** Quiet events *)

(** The events that leave the lock taken on [seatId] alone, where [t] is the
    timer of that lock and [expires] its expiry: requests on other seats,
    listings, other timers, and lock requests on [seatId] made before the
    expiry (they are rejected).  No confirm and no unlock on [seatId]. *)
Definition quiet (seatId : string) (t : TimeoutObject) (expires : Z)
  (e : event) : Prop :=
  match e with
  | ELock k _ now _ => k <> seatId \/ now < expires
  | EConfirm k _ _ => k <> seatId
  | EUnlock k _ => k <> seatId
  | ESnapshot => True
  | EFire t' _ => t' <> t
  end.

(** ** Sample states *)

Definition alice : jsval := JStr "alice".
Definition bob : jsval := JStr "bob".

(** Seat 3 locked by alice at time 1000, hence until 61000. *)
Definition st_locked : State := snd (lock "3" alice 1000 1000 init).

(** Seat 3 booked by alice at time 2000. *)
Definition st_booked : State := snd (confirm "3" alice 2000 st_locked).

(** A seat that is locked although its [lockExpiresAt] is [null]; the
    service never produces such a record. *)
Definition st_no_expiry : State :=
  mkState {[ "1"%string := mkSeat Locked alice None None ]} ∅ 0%nat.

(** A booked seat that still carries an owner, an expiry and a timer; the
    service never produces such a record. *)
Definition st_stale : State :=
  mkState {[ "1"%string := mkSeat Booked alice (Some 5) (Some 7%nat) ]}
          ∅ 8%nat.

(** ** Further vocabulary *)

(** The HTTP status each handler sends with an error of a given kind. *)
Definition status_code (k : error) : Z :=
  match k with
  | NotFound => 404
  | Conflict => 409
  | Forbidden => 403
  | InvalidRequest | AlreadyBooked | CannotBeLocked | NotLocked | Expired => 400
  end.

(** The seat id an event works on: the id in the path of a request, the
    [seatId] captured by the callback of a pending timer. *)
Definition concerns (st : State) (e : event) : option string :=
  match e with
  | ELock k _ _ _ | EConfirm k _ _ | EUnlock k _ => Some k
  | ESnapshot => None
  | EFire t _ => fst <$> timers st !! t
  end.

(** The events that respect the lock that [owner] holds on [seatId] until
    [expires]: requests of that kind on the seat are not the owner's own
    confirm or unlock, and lock requests and timers come before the
    expiry. *)
Definition respects (seatId : string) (owner : jsval) (expires : Z)
  (e : event) : Prop :=
  match e with
  | ELock k _ now _ => k = seatId -> now < expires
  | EConfirm k userId _ => k = seatId -> userId <> owner
  | EUnlock k userId => k = seatId -> userId <> owner
  | ESnapshot => True
  | EFire _ now => now < expires
  end.

(** * Playing card collection (node4.2.js) *)

Module Cards.

(** A card; [suit] and [value] are whatever the request body held. *)
Record Card : Type := mkCard {
  id : Z;
  suit : jsval;
  value : jsval;
}.

Global Instance Card_eq_dec : EqDecision Card.
Proof. solve_decision. Defined.

(** The module state: the array [cards] and the counter [nextId] (numbers
    taken at integer values). *)
Record Store : Type := mkStore {
  cards : list Card;
  nextId : Z;
}.

Definition initial_cards : list Card :=
  [ mkCard 1 (JStr "Hearts") (JStr "Ace");
    mkCard 2 (JStr "Spades") (JStr "King");
    mkCard 3 (JStr "Diamonds") (JStr "Queen") ].

(** [let nextId = cards.length + 1] *)
Definition init : Store :=
  mkStore initial_cards (Z.of_nat (length initial_cards) + 1).

Inductive response : Type :=
  | CardList (cs : list Card)      (* 200: the array *)
  | CardFound (c : Card)           (* 200: the card *)
  | CardCreated (c : Card)         (* 201: the new card *)
  | CardRemoved (c : Card)         (* 200: message and removed card *)
  | CardNotFound                   (* 404 *)
  | FieldsRequired.                (* 400 *)

(** [c.id === id], where [id] is the value of [parseInt(req.params.id)]:
    an integer, or [NaN] ([None]), which is equal to nothing. *)
Definition has_id (p : option Z) (c : Card) : Prop := p = Some (id c).

Global Instance has_id_dec p c : Decision (has_id p c).
Proof. unfold has_id. apply _. Defined.

(** [GET /cards] *)
Definition get_cards (st : Store) : response * Store :=
  (CardList (cards st), st).

(** [GET /cards/:id]: [cards.find] returns the first match. *)
Definition get_card (p : option Z) (st : Store) : response * Store :=
  match list_find (has_id p) (cards st) with
  | Some (_, c) => (CardFound c, st)
  | None => (CardNotFound, st)
  end.

(** [POST /cards] with [{ suit, value } = req.body] *)
Definition post_card (suit value : jsval) (st : Store) : response * Store :=
  if negb (truthy suit) || negb (truthy value) then (FieldsRequired, st)
  else
    let newCard := mkCard (nextId st) suit value in
    (CardCreated newCard, mkStore (cards st ++ [newCard]) (nextId st + 1)).

(** [DELETE /cards/:id]: [findIndex] returns the first match, [splice]
    removes the element at that index. *)
Definition delete_card (p : option Z) (st : Store) : response * Store :=
  match list_find (has_id p) (cards st) with
  | None => (CardNotFound, st)
  | Some (index, removedCard) =>
      (CardRemoved removedCard,
       mkStore (delete index (cards st)) (nextId st))
  end.

Inductive event : Type :=
  | EGetAll
  | EGet (p : option Z)
  | EPost (suit value : jsval)
  | EDelete (p : option Z).

Definition step (st : Store) (e : event) : Store :=
  match e with
  | EGetAll => snd (get_cards st)
  | EGet p => snd (get_card p st)
  | EPost suit value => snd (post_card suit value st)
  | EDelete p => snd (delete_card p st)
  end.

Definition run (st : Store) (es : list event) : Store := foldl step st es.

Inductive reachable : Store -> Prop :=
  | reachable_init : reachable init
  | reachable_step st e : reachable st -> reachable (step st e).

(** Ids are pairwise different and below the counter. *)
Definition ids_ok (st : Store) : Prop :=
  NoDup (id <$> cards st) /\
  Forall (fun c => 1 <= id c < nextId st) (cards st) /\
  1 <= nextId st.

End Cards.

(** * Lemmas *)

(** ** Equations of the store operations *)

Lemma seat_at_own st seatId s :
  seats st !! seatId = Some s -> seat_at st seatId = Own s.
Proof. unfold seat_at. by intros ->. Qed.

Lemma seat_at_own_inv st seatId s :
  seat_at st seatId = Own s -> seats st !! seatId = Some s.
Proof.
  unfold seat_at. destruct (seats st !! seatId); [congruence |].
  by case_bool_decide.
Qed.

Lemma seat_at_not_own st seatId :
  seats st !! seatId = None -> slot_status (seat_at st seatId) = None.
Proof. unfold seat_at. intros ->. by case_bool_decide. Qed.

Lemma releaseLock_own st seatId s :
  seats st !! seatId = Some s ->
  releaseLock seatId st =
    mkState (<[seatId := released s]> (seats st))
            (cancel (timer s) (timers st)) (next_timer st).
Proof.
  intros Hs. unfold releaseLock. rewrite (seat_at_own _ _ _ Hs).
  destruct st as [ss tm nx], s as [stt ow ex [h|]];
    destruct stt; cbn in *; unfold set_seat; cbn; f_equal;
    rewrite ?insert_insert_eq; try done; by rewrite insert_id.
Qed.

Lemma releaseLock_not_own st seatId :
  seats st !! seatId = None -> releaseLock seatId st = st.
Proof.
  intros Hs. unfold releaseLock, seat_at. rewrite Hs. by case_bool_decide.
Qed.

Lemma acquire_available st seatId userId now s :
  seats st !! seatId = Some s -> status s = Available ->
  acquire seatId userId now st =
    (Ok200 (Some (now + LOCK_TTL_MS)),
     mkState
       (<[seatId := mkSeat Locked userId (Some (now + LOCK_TTL_MS))
                      (Some (next_timer st))]> (seats st))
       (<[next_timer st := (seatId, now + LOCK_TTL_MS)]>
          (cancel (timer s) (timers st)))
       (S (next_timer st))).
Proof.
  intros Hs Hav. unfold acquire. rewrite (seat_at_own _ _ _ Hs), Hav.
  destruct st as [ss tm nx], s as [stt ow ex [h|]]; cbn in *;
    unfold set_seat; cbn; by rewrite ?insert_insert_eq.
Qed.

Lemma acquire_not_available st seatId userId now :
  slot_status (seat_at st seatId) <> Some Available ->
  acquire seatId userId now st = (Fail 400 CannotBeLocked, st).
Proof.
  unfold acquire. destruct (seat_at st seatId) as [s| |]; cbn; try done.
  destruct (status s); congruence.
Qed.

Lemma released_locked s :
  status s = Locked -> released s = fresh_seat.
Proof. unfold released. by intros ->. Qed.

Lemma released_not_locked s :
  status s <> Locked -> status (released s) = status s.
Proof. unfold released. by destruct (status s). Qed.

(** ** Equations of the handlers, one per path through the source *)

Lemma lock_missing_user seatId userId now now' st :
  truthy userId = false ->
  lock seatId userId now now' st = (Fail 400 InvalidRequest, st).
Proof. unfold lock. by intros ->. Qed.

Lemma lock_undefined seatId userId now now' st :
  truthy userId = true -> seat_at st seatId = Undefined ->
  lock seatId userId now now' st = (Fail 404 NotFound, st).
Proof. unfold lock. by intros -> ->. Qed.

Lemma lock_inherited seatId userId now now' st :
  truthy userId = true -> seat_at st seatId = Inherited ->
  lock seatId userId now now' st = (Fail 400 CannotBeLocked, st).
Proof.
  intros Hu Hs. unfold lock. rewrite Hu, Hs. cbn.
  apply acquire_not_available. by rewrite Hs.
Qed.

Lemma lock_booked seatId userId now now' st s :
  truthy userId = true -> seats st !! seatId = Some s -> status s = Booked ->
  lock seatId userId now now' st = (Fail 400 AlreadyBooked, st).
Proof.
  intros Hu Hs Hb. unfold lock.
  by rewrite Hu, (seat_at_own _ _ _ Hs); cbn; rewrite Hb.
Qed.

Lemma lock_locked_valid seatId userId now now' st s :
  truthy userId = true -> seats st !! seatId = Some s -> status s = Locked ->
  lapsed (lockExpiresAt s) now = false ->
  lock seatId userId now now' st = (Fail 409 Conflict, st).
Proof.
  intros Hu Hs Hl Hv. unfold lock.
  by rewrite Hu, (seat_at_own _ _ _ Hs); cbn; rewrite Hl, Hv.
Qed.

Lemma lock_locked_lapsed seatId userId now now' st s :
  truthy userId = true -> seats st !! seatId = Some s -> status s = Locked ->
  lapsed (lockExpiresAt s) now = true ->
  lock seatId userId now now' st =
    acquire seatId userId now' (releaseLock seatId st).
Proof.
  intros Hu Hs Hl Hv. unfold lock.
  by rewrite Hu, (seat_at_own _ _ _ Hs); cbn; rewrite Hl, Hv.
Qed.

Lemma lock_available seatId userId now now' st s :
  truthy userId = true -> seats st !! seatId = Some s ->
  status s = Available ->
  lock seatId userId now now' st = acquire seatId userId now' st.
Proof.
  intros Hu Hs Ha. unfold lock.
  by rewrite Hu, (seat_at_own _ _ _ Hs); cbn; rewrite Ha.
Qed.

(** Acquiring after the release of a locked seat. *)
Lemma acquire_after_release seatId userId now st s :
  seats st !! seatId = Some s -> status s = Locked ->
  acquire seatId userId now (releaseLock seatId st) =
    (Ok200 (Some (now + LOCK_TTL_MS)),
     mkState
       (<[seatId := mkSeat Locked userId (Some (now + LOCK_TTL_MS))
                      (Some (next_timer st))]> (seats st))
       (<[next_timer st := (seatId, now + LOCK_TTL_MS)]>
          (cancel (timer s) (timers st)))
       (S (next_timer st))).
Proof.
  intros Hs Hl. rewrite (releaseLock_own _ _ _ Hs), (released_locked _ Hl).
  erewrite acquire_available; cbn; [| apply lookup_insert_eq | done].
  by rewrite insert_insert_eq.
Qed.

Lemma confirm_missing_user seatId userId now st :
  truthy userId = false ->
  confirm seatId userId now st = (Fail 400 InvalidRequest, st).
Proof. unfold confirm. by intros ->. Qed.

Lemma confirm_not_own seatId userId now st :
  seats st !! seatId = None -> snd (confirm seatId userId now st) = st.
Proof.
  intros Hs. unfold confirm, seat_at. rewrite Hs.
  destruct (truthy userId); cbn; [| done]. by case_bool_decide.
Qed.

Lemma confirm_own seatId userId now st s :
  truthy userId = true -> seats st !! seatId = Some s ->
  confirm seatId userId now st =
    match status s with
    | Booked => (Fail 400 AlreadyBooked, st)
    | Available => (Fail 400 NotLocked, st)
    | Locked =>
        if negb (strict_eq (lockOwner s) userId) then (Fail 403 Forbidden, st)
        else if expired (lockExpiresAt s) now
        then (Fail 400 Expired,
              mkState (<[seatId := fresh_seat]> (seats st))
                      (cancel (timer s) (timers st)) (next_timer st))
        else (Ok200 None,
              mkState (<[seatId := mkSeat Booked JNull None None]> (seats st))
                      (cancel (timer s) (timers st)) (next_timer st))
    end.
Proof.
  intros Hu Hs. unfold confirm. rewrite Hu, (seat_at_own _ _ _ Hs); cbn.
  destruct (status s) eqn:Hst; try done.
  destruct (negb _); [done |]. destruct (expired _ _).
  - by rewrite (releaseLock_own _ _ _ Hs), (released_locked _ Hst).
  - destruct st as [ss tm nx], s as [stt ow ex [h|]]; cbn in *;
      unfold set_seat; cbn; by rewrite ?insert_insert_eq.
Qed.

Lemma confirm_expired seatId userId now st s :
  truthy userId = true ->
  seats st !! seatId = Some s -> status s = Locked -> lockOwner s = userId ->
  expired (lockExpiresAt s) now = true ->
  confirm seatId userId now st =
    (Fail 400 Expired,
     mkState (<[seatId := fresh_seat]> (seats st))
             (cancel (timer s) (timers st)) (next_timer st)).
Proof.
  intros Hu Hs Hl Ho He. rewrite (confirm_own _ _ _ _ s), Hl by done.
  unfold strict_eq. rewrite bool_decide_eq_true_2 by done. cbn.
  by rewrite He.
Qed.

Lemma unlock_missing_user seatId userId st :
  truthy userId = false ->
  unlock seatId userId st = (Fail 400 InvalidRequest, st).
Proof. unfold unlock. by intros ->. Qed.

Lemma unlock_not_own seatId userId st :
  seats st !! seatId = None -> snd (unlock seatId userId st) = st.
Proof.
  intros Hs. unfold unlock, seat_at. rewrite Hs.
  destruct (truthy userId); cbn; [| done]. by case_bool_decide.
Qed.

Lemma unlock_own seatId userId st s :
  truthy userId = true -> seats st !! seatId = Some s ->
  unlock seatId userId st =
    match status s with
    | Locked =>
        if negb (strict_eq (lockOwner s) userId) then (Fail 403 Forbidden, st)
        else (Ok200 None,
              mkState (<[seatId := fresh_seat]> (seats st))
                      (cancel (timer s) (timers st)) (next_timer st))
    | _ => (Fail 400 NotLocked, st)
    end.
Proof.
  intros Hu Hs. unfold unlock. rewrite Hu, (seat_at_own _ _ _ Hs); cbn.
  destruct (status s) eqn:Hst; try done.
  destruct (negb _); [done |].
  by rewrite (releaseLock_own _ _ _ Hs), (released_locked _ Hst).
Qed.

Lemma expiry_callback_locked seatId st s :
  seats st !! seatId = Some s -> status s = Locked ->
  expiry_callback seatId st =
    mkState (<[seatId := fresh_seat]> (seats st))
            (cancel (timer s) (timers st)) (next_timer st).
Proof.
  intros Hs Hl. unfold expiry_callback. rewrite (seat_at_own _ _ _ Hs); cbn.
  by rewrite Hl, (releaseLock_own _ _ _ Hs), (released_locked _ Hl).
Qed.

Lemma expiry_callback_not_locked seatId st :
  slot_status (seat_at st seatId) <> Some Locked ->
  expiry_callback seatId st = st.
Proof.
  unfold expiry_callback. destruct (slot_status _) as [[]|]; congruence.
Qed.

(** ** The outcomes of a request *)

(** A request for a key that holds no seat record changes nothing. *)
Lemma lock_not_own seatId userId now now' st :
  seats st !! seatId = None -> snd (lock seatId userId now now' st) = st.
Proof.
  intros Hs. destruct (truthy userId) eqn:Hu.
  - destruct (seat_at st seatId) as [s| |] eqn:Hat.
    + apply seat_at_own_inv in Hat. congruence.
    + by rewrite lock_inherited.
    + by rewrite lock_undefined.
  - by rewrite lock_missing_user.
Qed.

(** A lock request is rejected and changes nothing, or it takes the seat. *)
Lemma lock_cases seatId userId now now' st :
  (exists code err, lock seatId userId now now' st = (Fail code err, st)) \/
  (exists s, seats st !! seatId = Some s /\ status s <> Booked /\
     truthy userId = true /\
     lock seatId userId now now' st =
       (Ok200 (Some (now' + LOCK_TTL_MS)),
        mkState
          (<[seatId := mkSeat Locked userId (Some (now' + LOCK_TTL_MS))
                         (Some (next_timer st))]> (seats st))
          (<[next_timer st := (seatId, now' + LOCK_TTL_MS)]>
             (cancel (timer s) (timers st)))
          (S (next_timer st)))).
Proof.
  destruct (truthy userId) eqn:Hu;
    [| left; rewrite lock_missing_user by done; eauto].
  destruct (seat_at st seatId) as [s| |] eqn:Hat;
    [| left; rewrite lock_inherited by done; eauto
     | left; rewrite lock_undefined by done; eauto].
  apply seat_at_own_inv in Hat. destruct (status s) eqn:Hst.
  - right. exists s. split_and!; [done | congruence | done |].
    rewrite (lock_available _ _ _ _ _ s) by done.
    by apply acquire_available.
  - destruct (lapsed (lockExpiresAt s) now) eqn:Hv.
    + right. exists s. split_and!; [done | congruence | done |].
      rewrite (lock_locked_lapsed _ _ _ _ _ s) by done.
      by apply acquire_after_release.
    + left. rewrite (lock_locked_valid _ _ _ _ _ s) by done. eauto.
  - left. rewrite (lock_booked _ _ _ _ _ s) by done. eauto.
Qed.

(** A confirm request is rejected and changes nothing, or it finds the seat
    locked and leaves it either available (lock expired) or booked. *)
Lemma confirm_cases seatId userId now st :
  (exists code err, confirm seatId userId now st = (Fail code err, st)) \/
  (exists s s', seats st !! seatId = Some s /\ status s = Locked /\
     (s' = fresh_seat \/ s' = mkSeat Booked JNull None None) /\
     snd (confirm seatId userId now st) =
       mkState (<[seatId := s']> (seats st))
               (cancel (timer s) (timers st)) (next_timer st)).
Proof.
  destruct (truthy userId) eqn:Hu;
    [| left; rewrite confirm_missing_user by done; eauto].
  destruct (seat_at st seatId) as [s| |] eqn:Hat;
    [| left; unfold confirm; rewrite Hu, Hat; eauto ..].
  apply seat_at_own_inv in Hat. rewrite (confirm_own _ _ _ _ s) by done.
  destruct (status s) eqn:Hst; [by eauto | | by eauto].
  destruct (negb _); [by eauto |].
  right. exists s.
  destruct (expired _ _);
    [exists fresh_seat | exists (mkSeat Booked JNull None None)];
    split_and!; auto.
Qed.

(** An unlock request is rejected and changes nothing, or it finds the seat
    locked and leaves it available. *)
Lemma unlock_cases seatId userId st :
  (exists code err, unlock seatId userId st = (Fail code err, st)) \/
  (exists s, seats st !! seatId = Some s /\ status s = Locked /\
     unlock seatId userId st =
       (Ok200 None,
        mkState (<[seatId := fresh_seat]> (seats st))
                (cancel (timer s) (timers st)) (next_timer st))).
Proof.
  destruct (truthy userId) eqn:Hu;
    [| left; rewrite unlock_missing_user by done; eauto].
  destruct (seat_at st seatId) as [s| |] eqn:Hat;
    [| left; unfold unlock; rewrite Hu, Hat; eauto ..].
  apply seat_at_own_inv in Hat. rewrite (unlock_own _ _ _ s) by done.
  destruct (status s) eqn:Hst; [by eauto | | by eauto].
  destruct (negb _); [by eauto |]. right. by exists s.
Qed.

(** A timer that runs changes no seat, or it finds its seat locked and
    leaves it available. *)
Lemma fire_seats t now st :
  seats (fire t now st) = seats st \/
  exists seatId s, seats st !! seatId = Some s /\ status s = Locked /\
    seats (fire t now st) = <[seatId := fresh_seat]> (seats st).
Proof.
  unfold fire. destruct (timers st !! t) as [[seatId due]|]; [| by left].
  destruct (due <=? now); [| by left].
  destruct (seats st !! seatId) as [s|] eqn:Hs.
  - destruct (decide (status s = Locked)) as [Hl|Hl].
    + right. exists seatId, s. split_and!; try done.
      by rewrite (expiry_callback_locked _ _ s).
    + left. rewrite expiry_callback_not_locked; [done |].
      rewrite (seat_at_own _ _ s); cbn; [congruence | done].
  - left. rewrite expiry_callback_not_locked; [done |].
    by rewrite seat_at_not_own.
Qed.

(** ** Shapes of a step *)

Lemma lock_transition seatId userId now now' st :
  transition st (snd (lock seatId userId now now' st)).
Proof.
  destruct (lock_cases seatId userId now now' st)
    as [(code & err & ->)|(s & Hs & Hnb & Hu & ->)]; cbn.
  - constructor.
  - by apply (tr_acquire _ _ s).
Qed.

Lemma confirm_transition seatId userId now st :
  transition st (snd (confirm seatId userId now st)).
Proof.
  destruct (confirm_cases seatId userId now st)
    as [(code & err & ->)|(s & s' & Hs & Hl & Hs' & ->)]; cbn.
  - constructor.
  - by apply (tr_leave _ _ s).
Qed.

Lemma unlock_transition seatId userId st :
  transition st (snd (unlock seatId userId st)).
Proof.
  destruct (unlock_cases seatId userId st)
    as [(code & err & ->)|(s & Hs & Hl & ->)]; cbn.
  - constructor.
  - apply (tr_leave _ _ s); auto.
Qed.

Lemma transition_seats st st' :
  transition st st' ->
  seats st' = seats st \/
  exists seatId s s', seats st !! seatId = Some s /\ seat_move s s' /\
    seats st' = <[seatId := s']> (seats st).
Proof.
  destruct 1 as [|seatId s userId now Hs Hnb Hu|seatId s s' Hs Hl Hs'];
    [by left | |]; right; exists seatId, s; eexists;
    (split; [done |]); (split; [| done]).
  - by constructor.
  - destruct Hs' as [-> | ->]; by constructor.
Qed.

Lemma step_seats st e :
  seats (step st e) = seats st \/
  exists seatId s s', seats st !! seatId = Some s /\ seat_move s s' /\
    seats (step st e) = <[seatId := s']> (seats st).
Proof.
  destruct e as [seatId userId now now'|seatId userId now|seatId userId| |t now];
    cbn.
  - apply transition_seats, lock_transition.
  - apply transition_seats, confirm_transition.
  - apply transition_seats, unlock_transition.
  - by left.
  - destruct (fire_seats t now st) as [H|(seatId & s & Hs & Hl & H)];
      [by left |].
    right. exists seatId, s, fresh_seat. split_and!; try done. by constructor.
Qed.

(** ** The data-model invariant *)

Lemma seat_move_ok s s' : seat_move s s' -> seat_ok s'.
Proof.
  destruct 1 as [s userId e t _ Hu| |]; unfold seat_ok; cbn.
  - assert (userId <> JNull) by (by intros ->). intuition congruence.
  - intuition congruence.
  - intuition congruence.
Qed.

Lemma seat_ok_released s : seat_ok s -> seat_ok (released s).
Proof.
  unfold released. destruct (status s) eqn:Hst; unfold seat_ok; cbn;
    rewrite ?Hst; intuition congruence.
Qed.

Lemma init_seats_fresh seatId s :
  seats init !! seatId = Some s -> s = fresh_seat.
Proof.
  unfold init, init_seats, SEAT_COUNT. cbn.
  repeat (rewrite lookup_insert; case_decide; [congruence |]).
  by rewrite lookup_empty.
Qed.

Lemma state_ok_init : state_ok init.
Proof.
  intros seatId s ->%init_seats_fresh.
  unfold seat_ok; cbn. intuition congruence.
Qed.

Lemma state_ok_step st e : state_ok st -> state_ok (step st e).
Proof.
  intros Hok seatId s.
  destruct (step_seats st e) as [->|(k & s0 & s' & Hk & Hm & ->)];
    [apply Hok |].
  rewrite lookup_insert. case_decide; [| apply Hok].
  intros [= <-]. by eapply seat_move_ok.
Qed.

Lemma state_ok_releaseLock seatId st :
  state_ok st -> state_ok (releaseLock seatId st).
Proof.
  intros Hok. destruct (seats st !! seatId) as [s|] eqn:Hs;
    [| by rewrite releaseLock_not_own].
  rewrite (releaseLock_own _ _ s) by done. intros k sk; cbn.
  rewrite lookup_insert. case_decide; [| apply Hok].
  intros [= <-]. apply seat_ok_released. by eapply Hok.
Qed.

Lemma reachable_state_ok st : reachable st -> state_ok st.
Proof.
  induction 1; [apply state_ok_init | by apply state_ok_step].
Qed.

(** A booked seat is not the source of any move. *)
Lemma booked_step st e seatId s :
  seats st !! seatId = Some s -> status s = Booked ->
  seats (step st e) !! seatId = Some s.
Proof.
  intros Hs Hb.
  destruct (step_seats st e) as [->|(k & s0 & s' & Hk & Hm & ->)]; [done |].
  rewrite lookup_insert. case_decide as Heq; [| done]. subst k.
  assert (s0 = s) as -> by congruence.
  destruct Hm; congruence.
Qed.

Lemma booked_run es st seatId s :
  seats st !! seatId = Some s -> status s = Booked ->
  seats (run st es) !! seatId = Some s.
Proof.
  revert st. induction es as [|e es IH]; intros st Hs Hb; cbn; [done |].
  apply IH; [| done]. by apply booked_step.
Qed.

(** ** The invariant of the pending timers *)

Lemma timers_ok_init : timers_ok init.
Proof.
  split.
  - intros seatId s ->%init_seats_fresh. done.
  - intros t seatId due. cbn. by rewrite lookup_empty.
Qed.

(** In a state that satisfies [timers_ok], a timer that runs finds its seat
    locked and releases it. *)
Lemma fire_due st t now seatId due :
  timers_ok st -> timers st !! t = Some (seatId, due) -> due <= now ->
  exists s, seats st !! seatId = Some s /\ status s = Locked /\
    timer s = Some t /\
    fire t now st =
      mkState (<[seatId := fresh_seat]> (seats st))
              (cancel (timer s) (timers st)) (next_timer st).
Proof.
  intros [_ Hok] Ht Hdue. destruct (Hok _ _ _ Ht) as (_ & s & Hs & Hl & Hts).
  exists s. split_and!; try done.
  unfold fire. rewrite Ht. destruct (Z.leb_spec due now); [| lia].
  rewrite (expiry_callback_locked _ _ s) by done. cbn.
  by rewrite Hts; cbn; rewrite delete_delete_eq.
Qed.

Lemma fire_not_due st t now :
  (forall seatId due, timers st !! t = Some (seatId, due) -> now < due) ->
  fire t now st = st.
Proof.
  intros H. unfold fire. destruct (timers st !! t) as [[seatId due]|]; [| done].
  specialize (H _ _ eq_refl). destruct (Z.leb_spec due now); [lia | done].
Qed.

Lemma fire_transition t now st :
  timers_ok st -> transition st (fire t now st).
Proof.
  intros Hok. destruct (timers st !! t) as [[seatId due]|] eqn:Ht.
  - destruct (Z.leb_spec due now) as [Hd|Hd].
    + destruct (fire_due _ _ _ _ _ Hok Ht Hd) as (s & Hs & Hl & _ & ->).
      apply (tr_leave _ _ s); auto.
    + rewrite fire_not_due; [constructor |].
      intros ? ? ?. simplify_eq. lia.
  - unfold fire. rewrite Ht. constructor.
Qed.

Lemma step_transition st e : timers_ok st -> transition st (step st e).
Proof.
  intros Hok.
  destruct e as [seatId userId now now'|seatId userId now|seatId userId| |t now];
    cbn.
  - apply lock_transition.
  - apply confirm_transition.
  - apply unlock_transition.
  - constructor.
  - by apply fire_transition.
Qed.

Lemma cancel_lookup_Some o (tm : gmap TimeoutObject (string * Z)) t x :
  cancel o tm !! t = Some x -> tm !! t = Some x /\ o <> Some t.
Proof.
  destruct o as [t0|]; cbn; [| done].
  rewrite lookup_delete_Some. intros [Hne ?]. split; congruence.
Qed.

(** Clearing the timer stored in one seat leaves the timer of another locked
    seat pending. *)
Lemma cancel_lookup_other st seatId s k sk t :
  timers_ok st -> seats st !! seatId = Some s -> seats st !! k = Some sk ->
  k <> seatId -> status sk = Locked -> timer sk = Some t ->
  cancel (timer s) (timers st) !! t = timers st !! t.
Proof.
  intros [H1 _] Hs Hk Hne Hl Ht.
  destruct (timer s) as [t0|] eqn:Ht0; cbn; [| done].
  apply lookup_delete_ne. intros ->.
  pose proof (H1 _ _ Hk) as Hsk. rewrite Hl in Hsk.
  destruct Hsk as (t1 & e1 & Ht1 & _ & Hp1).
  pose proof (H1 _ _ Hs) as Hss.
  destruct (status s); [congruence | | congruence].
  destruct Hss as (t2 & e2 & Ht2 & _ & Hp2). congruence.
Qed.

Lemma transition_ok st st' : timers_ok st -> transition st st' -> timers_ok st'.
Proof.
  intros Hok Htr. pose proof Hok as [H1 H2].
  destruct Htr as [|seatId s userId now Hs Hnb Hu|seatId s s' Hs Hl Hs'];
    [done | |].
  - split; cbn.
    + intros k sk. rewrite lookup_insert. case_decide as Hk.
      * subst k. intros [= <-]; cbn. eexists _, _. split_and!; try done.
        apply lookup_insert_eq.
      * intros Hsk. pose proof (H1 _ _ Hsk) as Hi.
        destruct (status sk) eqn:Hst; try done.
        destruct Hi as (t & e & Ht & He & Hp). exists t, e.
        split_and!; try done.
        destruct (H2 _ _ _ Hp) as [Hlt _].
        rewrite lookup_insert_ne by lia.
        by rewrite (cancel_lookup_other st seatId s k sk).
    + intros t k due. rewrite lookup_insert. case_decide as Ht.
      * intros [= <- <-]. subst t. split; [lia |].
        eexists. split; [apply lookup_insert_eq | done].
      * intros [Hp Hne]%cancel_lookup_Some.
        destruct (H2 _ _ _ Hp) as (Hlt & sk & Hk & Hlk & Htk).
        split; [lia |]. exists sk. split; [| done].
        rewrite lookup_insert_ne; [done |]. intros <-. simplify_eq.
  - split; cbn.
    + intros k sk. rewrite lookup_insert. case_decide as Hk.
      * intros [= <-]. by destruct Hs' as [-> | ->].
      * intros Hsk. pose proof (H1 _ _ Hsk) as Hi.
        destruct (status sk) eqn:Hst; try done.
        destruct Hi as (t & e & Ht & He & Hp). exists t, e.
        split_and!; try done.
        by rewrite (cancel_lookup_other st seatId s k sk).
    + intros t k due [Hp Hne]%cancel_lookup_Some.
      destruct (H2 _ _ _ Hp) as (Hlt & sk & Hk & Hlk & Htk).
      split; [done |]. exists sk. split; [| done].
      rewrite lookup_insert_ne; [done |]. intros <-. simplify_eq.
Qed.

Lemma timers_ok_step st e : timers_ok st -> timers_ok (step st e).
Proof. intros Hok. eapply transition_ok; [done |]. by apply step_transition. Qed.

Lemma timers_ok_run es st : timers_ok st -> timers_ok (run st es).
Proof.
  revert st. induction es as [|e es IH]; intros st Hok; cbn; [done |].
  apply IH. by apply timers_ok_step.
Qed.

Lemma reachable_timers_ok st : reachable st -> timers_ok st.
Proof.
  induction 1; [apply timers_ok_init | by apply timers_ok_step].
Qed.

Lemma reachable_run es st : reachable st -> reachable (run st es).
Proof.
  revert st. induction es as [|e es IH]; intros st Hr; cbn; [done |].
  apply IH. by constructor.
Qed.


(** ** Frame: a request touches no seat but the one it names *)

Lemma lock_frame k seatId userId now now' st :
  k <> seatId ->
  seats (snd (lock k userId now now' st)) !! seatId = seats st !! seatId.
Proof.
  intros Hne. destruct (lock_cases k userId now now' st)
    as [(code & err & ->)|(s & _ & _ & _ & ->)]; cbn; [done |].
  by rewrite lookup_insert_ne.
Qed.

Lemma confirm_frame k seatId userId now st :
  k <> seatId ->
  seats (snd (confirm k userId now st)) !! seatId = seats st !! seatId.
Proof.
  intros Hne. destruct (confirm_cases k userId now st)
    as [(code & err & ->)|(s & s' & _ & _ & _ & ->)]; cbn; [done |].
  by rewrite lookup_insert_ne.
Qed.

Lemma unlock_frame k seatId userId st :
  k <> seatId ->
  seats (snd (unlock k userId st)) !! seatId = seats st !! seatId.
Proof.
  intros Hne. destruct (unlock_cases k userId st)
    as [(code & err & ->)|(s & _ & _ & ->)]; cbn; [done |].
  by rewrite lookup_insert_ne.
Qed.

Lemma expiry_callback_frame k seatId st :
  k <> seatId ->
  seats (expiry_callback k st) !! seatId = seats st !! seatId.
Proof.
  intros Hne. destruct (seats st !! k) as [s|] eqn:Hs.
  - destruct (decide (status s = Locked)) as [Hl|Hl].
    + rewrite (expiry_callback_locked _ _ s) by done.
      cbn. by rewrite lookup_insert_ne.
    + rewrite expiry_callback_not_locked; [done |].
      rewrite (seat_at_own _ _ s); cbn; [congruence | done].
  - rewrite expiry_callback_not_locked; [done |]. by rewrite seat_at_not_own.
Qed.

(** What a successful lock tells about the state it ran in. *)
Lemma lock_success_inv seatId userId now now' st x st1 :
  lock seatId userId now now' st = (Ok200 x, st1) ->
  truthy userId = true /\
  exists s, seats st !! seatId = Some s /\ status s <> Booked /\
    x = Some (now' + LOCK_TTL_MS) /\
    st1 = mkState
            (<[seatId := mkSeat Locked userId (Some (now' + LOCK_TTL_MS))
                           (Some (next_timer st))]> (seats st))
            (<[next_timer st := (seatId, now' + LOCK_TTL_MS)]>
               (cancel (timer s) (timers st)))
            (S (next_timer st)).
Proof.
  destruct (lock_cases seatId userId now now' st)
    as [(code & err & ->)|(s & Hs & Hnb & Hu & ->)]; [done |].
  intros [= <- <-]. split; [done |]. by exists s.
Qed.

(** ** The two expiry tests *)

Lemma lapsed_false_future e now : now < e -> lapsed (Some e) now = false.
Proof.
  intros H. cbn. destruct (Z.leb_spec e now); [lia |].
  by rewrite andb_false_r.
Qed.

Lemma lapsed_true_past e now : e <> 0 -> e <= now -> lapsed (Some e) now = true.
Proof.
  intros H0 H. cbn. destruct (Z.leb_spec e now); [| lia].
  destruct (Z.eqb_spec e 0); [lia | done].
Qed.

(** [0] is a falsy number: a lock whose [lockExpiresAt] were [0] would
    never count as lapsed. *)
Remark lapsed_zero now : lapsed (Some 0) now = false.
Proof. done. Qed.

Lemma expired_true e now :
  e = None \/ (exists t, e = Some t /\ t <= now) -> expired e now = true.
Proof.
  intros [-> | (t & -> & H)]; cbn; [done |].
  destruct (Z.leb_spec t now); [| lia]. by rewrite orb_true_r.
Qed.

(** ** A lock that is left alone *)

Section Quiet.
Variables (seatId : string) (userId : jsval) (e : Z) (t : TimeoutObject).

Let locked : Seat := mkSeat Locked userId (Some e) (Some t).

Lemma quiet_step st ev :
  timers_ok st -> seats st !! seatId = Some locked ->
  quiet seatId t e ev ->
  seats (step st ev) !! seatId = Some locked.
Proof.
  intros Hok Hs Hq.
  destruct ev as [k u now now'|k u now|k u| |t' now]; cbn in *.
  - destruct (decide (k = seatId)) as [->|Hne]; [| by rewrite lock_frame].
    destruct Hq as [? | Hnow]; [done |].
    destruct (truthy u) eqn:Hu; [| by rewrite lock_missing_user].
    rewrite (lock_locked_valid _ _ _ _ _ _ Hu Hs); try done.
    by apply lapsed_false_future.
  - by rewrite confirm_frame.
  - by rewrite unlock_frame.
  - done.
  - unfold fire. destruct (timers st !! t') as [[k due]|] eqn:Ht'; [| done].
    destruct (due <=? now); [| done].
    rewrite expiry_callback_frame; [done |]. intros ->.
    destruct Hok as [_ H2].
    destruct (H2 _ _ _ Ht') as (_ & s & Hs' & _ & Hts).
    subst locked. simplify_eq. cbn in *. congruence.
Qed.

Lemma quiet_run es st :
  timers_ok st -> seats st !! seatId = Some locked ->
  Forall (quiet seatId t e) es ->
  seats (run st es) !! seatId = Some locked.
Proof.
  revert st. induction es as [|ev es IH]; intros st Hok Hs Hq; cbn; [done |].
  inversion Hq; subst. apply IH; [by apply timers_ok_step | | done].
  by apply quiet_step.
Qed.
End Quiet.

(** * The lock state machine *)

(** ** The scenarios of the service description *)

(** Seat 3: alice locks it, bob is turned away (409, then 403 on confirm),
    alice confirms, and the seat can no longer be unlocked. *)
Example scenario_lock_confirm :
  fst (lock "3" alice 1000 1000 init) = Ok200 (Some 61000) /\
  fst (lock "3" bob 1001 1001 st_locked) = Fail 409 Conflict /\
  fst (confirm "3" bob 1002 st_locked) = Fail 403 Forbidden /\
  fst (confirm "3" alice 2000 st_locked) = Ok200 None /\
  status <$> seats st_booked !! "3"%string = Some Booked /\
  fst (unlock "3" alice st_booked) = Fail 400 NotLocked.
Proof. by vm_compute. Qed.

(** Seat 3 after its lock ran out: when the owner's confirm request comes
    before the timer has run it is answered "expired"; when the timer ran
    first the seat is available already and the answer is "not locked".  The
    seat is available afterwards either way. *)
Example scenario_lock_expire :
  confirm "3" alice 61001 st_locked
    = (Fail 400 Expired, fire 0%nat 61001 st_locked) /\
  confirm "3" alice 61001 (fire 0%nat 61000 st_locked)
    = (Fail 400 NotLocked, fire 0%nat 61000 st_locked) /\
  fst (snapshot (fire 0%nat 61000 st_locked)) !! "3"%string
    = Some (mkSeatView Available JNull None).
Proof. by vm_compute. Qed.

(** C1. Every seat of the initial store is available with [null] owner,
    expiry and timer, and the data-model invariant — the status is one of
    available, locked, booked, and owner and expiry are both set exactly when
    the status is locked, both [null] otherwise — holds initially, is
    preserved by every operation (lock, confirm, unlock, snapshot, a timer
    running the expiry callback) and by [releaseLock] and the expiry callback
    on any seat id, hence holds in every reachable state. *)
Theorem invariant_preserved :
  (forall seatId s, seats init !! seatId = Some s -> s = fresh_seat) /\
  state_ok init /\
  (forall st e, state_ok st -> state_ok (step st e)) /\
  (forall st seatId, state_ok st -> state_ok (releaseLock seatId st)) /\
  (forall st seatId, state_ok st -> state_ok (expiry_callback seatId st)) /\
  (forall st, reachable st -> state_ok st).
Proof.
  split_and!.
  - apply init_seats_fresh.
  - apply state_ok_init.
  - intros st e. apply state_ok_step.
  - intros st seatId. apply state_ok_releaseLock.
  - intros st seatId Hok. unfold expiry_callback.
    destruct (slot_status _) as [[]|]; try done.
    by apply state_ok_releaseLock.
  - apply reachable_state_ok.
Qed.

Lemma invariant_preserved_witness :
  state_ok (step init (ELock "3" alice 1000 1000)) /\
  state_ok (step st_locked (EFire 0%nat 61000)) /\
  state_ok st_booked.
Proof.
  destruct invariant_preserved as (_ & Hinit & Hstep & _ & _ & Hreach).
  split_and!.
  - apply Hstep, Hinit.
  - apply Hstep. apply (Hstep init (ELock "3" alice 1000 1000)), Hinit.
  - apply Hreach. apply (reachable_step _ (EConfirm "3" alice 2000)).
    apply (reachable_step _ (ELock "3" alice 1000 1000)). constructor.
Defined.

(** C2 (as stated, refuted). Seat 3 is locked by alice until 61000; at time
    1001 a lock request without a [userId], or with an empty one, is
    answered 400 (missing userId), not 409 (conflict): the handler checks
    [userId] before it looks at the seat. *)
Lemma lock_valid_lock_without_claimant :
  seats st_locked !! "3"%string
    = Some (mkSeat Locked alice (Some 61000) (Some 0%nat)) /\
  1001 < 61000 /\
  lock "3" (JStr "") 1001 1001 st_locked
    = (Fail 400 InvalidRequest, st_locked) /\
  lock "3" JUndefined 1001 1001 st_locked
    = (Fail 400 InvalidRequest, st_locked) /\
  fst (lock "3" (JStr "") 1001 1001 st_locked) <> Fail 409 Conflict.
Proof. vm_compute. split_and!; done. Qed.

(** C2 (amended). A lock request with a non-empty [userId] on a seat that is
    locked and whose [lockExpiresAt] is later than the current time is
    answered 409 (conflict) whoever asks, the lock owner included, and
    leaves the whole state — status, owner, expiry, timer handle and pending
    timers — as it was; without a [userId] the answer is 400 (invalid
    request), the state being unchanged as well. *)
Theorem lock_valid_lock_conflict st seatId userId now now' s e :
  seats st !! seatId = Some s -> status s = Locked ->
  lockExpiresAt s = Some e -> now < e ->
  (truthy userId = true ->
     lock seatId userId now now' st = (Fail 409 Conflict, st)) /\
  (truthy (lockOwner s) = true ->
     lock seatId (lockOwner s) now now' st = (Fail 409 Conflict, st)) /\
  (truthy userId = false ->
     lock seatId userId now now' st = (Fail 400 InvalidRequest, st)).
Proof.
  intros Hs Hl He Hnow.
  assert (lapsed (lockExpiresAt s) now = false) as Hv
    by (rewrite He; by apply lapsed_false_future).
  split_and!; intros Hu.
  - by apply (lock_locked_valid _ _ _ _ _ s).
  - by apply (lock_locked_valid _ _ _ _ _ s).
  - by apply lock_missing_user.
Qed.

Lemma lock_valid_lock_conflict_witness :
  lock "3" bob 1001 1001 st_locked = (Fail 409 Conflict, st_locked) /\
  lock "3" alice 1001 1001 st_locked = (Fail 409 Conflict, st_locked).
Proof.
  destruct (lock_valid_lock_conflict st_locked "3" bob 1001 1001
              (mkSeat Locked alice (Some 61000) (Some 0%nat)) 61000)
    as (Hbob & Halice & _); [by vm_compute | done | done | lia |].
  split; [by apply Hbob | by apply Halice].
Defined.

(** C3. A lock request with a non-empty [userId] on a seat that is locked
    and whose [lockExpiresAt] is set (a number other than 0, which is what
    the handler tests) and not later than the current time succeeds.
    [releaseLock] runs first: it makes the seat available with [null] owner,
    expiry and timer, and the old timer is no longer pending.  Then the seat
    is locked for [userId] until the time of acquisition plus
    [LOCK_TTL_MS], a new timer due at that time is pending and stored in the
    seat, and the response carries the new expiry. *)
Theorem lock_lapsed_reclaim st seatId userId now now' s e :
  truthy userId = true ->
  seats st !! seatId = Some s -> status s = Locked ->
  lockExpiresAt s = Some e -> e <> 0 -> e <= now ->
  seats (releaseLock seatId st) !! seatId = Some fresh_seat /\
  (forall t, timer s = Some t -> timers (releaseLock seatId st) !! t = None) /\
  lock seatId userId now now' st
    = acquire seatId userId now' (releaseLock seatId st) /\
  lock seatId userId now now' st =
    (Ok200 (Some (now' + LOCK_TTL_MS)),
     mkState
       (<[seatId := mkSeat Locked userId (Some (now' + LOCK_TTL_MS))
                      (Some (next_timer st))]> (seats st))
       (<[next_timer st := (seatId, now' + LOCK_TTL_MS)]>
          (cancel (timer s) (timers st)))
       (S (next_timer st))).
Proof.
  intros Hu Hs Hl He H0 Hnow.
  assert (lapsed (lockExpiresAt s) now = true) as Hv
    by (rewrite He; by apply lapsed_true_past).
  split_and!.
  - rewrite (releaseLock_own _ _ s), (released_locked s) by done.
    apply lookup_insert_eq.
  - intros t Ht. rewrite (releaseLock_own _ _ s) by done.
    cbn. rewrite Ht. apply lookup_delete_eq.
  - by apply (lock_locked_lapsed _ _ _ _ _ s).
  - rewrite (lock_locked_lapsed _ _ _ _ _ s) by done.
    by apply acquire_after_release.
Qed.

Lemma lock_lapsed_reclaim_witness :
  lock "3" bob 61000 61001 st_locked =
    (Ok200 (Some 121001),
     mkState
       (<["3"%string := mkSeat Locked bob (Some 121001) (Some 1%nat)]>
          (seats st_locked))
       {[ 1%nat := ("3"%string, 121001) ]}
       2%nat).
Proof.
  destruct (lock_lapsed_reclaim st_locked "3" bob 61000 61001
              (mkSeat Locked alice (Some 61000) (Some 0%nat)) 61000)
    as (_ & _ & _ & ->); [done | by vm_compute | done | done | lia | lia |].
  by vm_compute.
Defined.

(** C4. Booked is terminal.  Once a seat is booked, no operation and no
    timer changes its record, after one step or after any run.  A lock or a
    confirm request (carrying a [userId]) is answered 400 "already booked"
    and an unlock request 400 "not locked", without any change of state.
    [releaseLock] on a booked seat keeps status, owner and expiry (it only
    drops a timer handle, if one is stored; with none stored it changes
    nothing), and the expiry callback does nothing at all. *)
Theorem booked_is_terminal st seatId s :
  seats st !! seatId = Some s -> status s = Booked ->
  (forall e, seats (step st e) !! seatId = Some s) /\
  (forall es, seats (run st es) !! seatId = Some s) /\
  (forall userId now now', truthy userId = true ->
     lock seatId userId now now' st = (Fail 400 AlreadyBooked, st)) /\
  (forall userId now, truthy userId = true ->
     confirm seatId userId now st = (Fail 400 AlreadyBooked, st)) /\
  (forall userId, truthy userId = true ->
     unlock seatId userId st = (Fail 400 NotLocked, st)) /\
  (exists s', seats (releaseLock seatId st) !! seatId = Some s' /\
     status s' = Booked /\ lockOwner s' = lockOwner s /\
     lockExpiresAt s' = lockExpiresAt s) /\
  (timer s = None -> releaseLock seatId st = st) /\
  expiry_callback seatId st = st.
Proof.
  intros Hs Hb. split_and!.
  - intros e. by apply booked_step.
  - intros es. by apply booked_run.
  - intros userId now now' Hu. by apply (lock_booked _ _ _ _ _ s).
  - intros userId now Hu. by rewrite (confirm_own _ _ _ _ s), Hb.
  - intros userId Hu. by rewrite (unlock_own _ _ _ s), Hb.
  - exists (released s). rewrite (releaseLock_own _ _ s) by done. cbn.
    rewrite lookup_insert_eq. unfold released. by rewrite Hb.
  - intros Ht. rewrite (releaseLock_own _ _ s) by done.
    destruct st as [ss tm nx], s as [stt ow ex tmr]; cbn in *. subst.
    unfold released; cbn. by rewrite insert_id.
  - apply expiry_callback_not_locked. rewrite (seat_at_own _ _ s) by done.
    cbn. congruence.
Qed.

Lemma booked_is_terminal_witness :
  seats (run st_booked
           [ELock "3" bob 3000 3000; EConfirm "3" alice 3001;
            EUnlock "3" alice; EFire 0%nat 61000; ESnapshot]) !! "3"%string
    = Some (mkSeat Booked JNull None None) /\
  lock "3" bob 3000 3000 st_booked = (Fail 400 AlreadyBooked, st_booked) /\
  confirm "3" alice 3001 st_booked = (Fail 400 AlreadyBooked, st_booked) /\
  unlock "3" alice st_booked = (Fail 400 NotLocked, st_booked) /\
  expiry_callback "3" st_booked = st_booked.
Proof.
  destruct (booked_is_terminal st_booked "3" (mkSeat Booked JNull None None))
    as (_ & Hrun & Hlock & Hconfirm & Hunlock & _ & _ & Hcb);
    [by vm_compute | done |].
  split_and!.
  - apply Hrun.
  - by apply Hlock.
  - by apply Hconfirm.
  - by apply Hunlock.
  - apply Hcb.
Defined.

(** C5. A confirm request by the lock owner on a locked seat whose
    [lockExpiresAt] is unset, or not later than the current time, is
    answered 400 "expired"; as a side effect the seat becomes available with
    [null] owner, expiry and timer, and the timer it stored is no longer
    pending.  Nothing else changes. *)
Theorem confirm_expired_resets st seatId userId now s :
  truthy userId = true ->
  seats st !! seatId = Some s -> status s = Locked -> lockOwner s = userId ->
  (lockExpiresAt s = None \/ exists e, lockExpiresAt s = Some e /\ e <= now) ->
  confirm seatId userId now st =
    (Fail 400 Expired,
     mkState (<[seatId := fresh_seat]> (seats st))
             (cancel (timer s) (timers st)) (next_timer st)) /\
  seats (snd (confirm seatId userId now st)) !! seatId = Some fresh_seat /\
  (forall t, timer s = Some t ->
     timers (snd (confirm seatId userId now st)) !! t = None).
Proof.
  intros Hu Hs Hl Ho He.
  pose proof (confirm_expired _ _ _ _ s Hu Hs Hl Ho (expired_true _ _ He))
    as Heq.
  rewrite Heq. split_and!; [done | apply lookup_insert_eq |].
  intros t Ht. cbn. rewrite Ht. apply lookup_delete_eq.
Qed.

Lemma confirm_expired_resets_witness :
  confirm "3" alice 61000 st_locked =
    (Fail 400 Expired,
     mkState (<["3"%string := fresh_seat]> (seats st_locked)) ∅ 1%nat) /\
  seats (snd (confirm "3" alice 61000 st_locked)) !! "3"%string
    = Some fresh_seat.
Proof.
  destruct (confirm_expired_resets st_locked "3" alice 61000
              (mkSeat Locked alice (Some 61000) (Some 0%nat)))
    as (H1 & H2 & _);
    [done | by vm_compute | done | done | right; exists 61000; by split |].
  split; [| exact H2]. rewrite H1. by vm_compute.
Defined.

(** C7 (as stated, refuted). No seat is stored under "11", yet a lock
    request for it without a [userId], or with an empty one, is answered 400
    (invalid request) rather than 404 (not found): [userId] is checked
    first. *)
Lemma lock_unknown_seat_without_claimant :
  seats init !! "11"%string = None /\
  seat_at init "11" = Undefined /\
  lock "11" JUndefined 1000 1000 init = (Fail 400 InvalidRequest, init) /\
  lock "11" (JStr "") 1000 1000 init = (Fail 400 InvalidRequest, init) /\
  fst (lock "11" (JStr "") 1000 1000 init) <> Fail 404 NotFound.
Proof. vm_compute. split_and!; done. Qed.

(** A key that [seats] inherits from [Object.prototype] is not answered 404
    either: the lookup returns a function, whose [status] is [undefined]. *)
Remark lock_inherited_key :
  seats init !! "toString"%string = None /\
  lock "toString" alice 1000 1000 init = (Fail 400 CannotBeLocked, init).
Proof. by vm_compute. Qed.

(** C7 (amended). A lock request for an id under which [seats] holds
    nothing is answered 404 (not found) when it carries a non-empty
    [userId] — the id being no property name inherited from
    [Object.prototype] — and 400 (invalid request) when [userId] is missing
    or empty; the state is unchanged in both cases. *)
Theorem lock_unknown_seat st seatId userId now now' :
  seats st !! seatId = None ->
  (truthy userId = true -> seatId ∉ object_prototype_keys ->
     lock seatId userId now now' st = (Fail 404 NotFound, st)) /\
  (truthy userId = false ->
     lock seatId userId now now' st = (Fail 400 InvalidRequest, st)).
Proof.
  intros Hs. split.
  - intros Hu Hk. apply lock_undefined; [done |].
    unfold seat_at. rewrite Hs. by rewrite bool_decide_eq_false_2.
  - apply lock_missing_user.
Qed.

Lemma lock_unknown_seat_witness :
  lock "11" alice 1000 1000 init = (Fail 404 NotFound, init) /\
  lock "11" JNull 1000 1000 init = (Fail 400 InvalidRequest, init).
Proof.
  destruct (lock_unknown_seat init "11" alice 1000 1000) as [H404 _];
    [by vm_compute |].
  destruct (lock_unknown_seat init "11" JNull 1000 1000) as [_ H400];
    [by vm_compute |].
  split; [apply H404; [done | compute_done] | by apply H400].
Defined.

(** C8. An unlock request on a locked seat by a claimant other than the
    lock owner is answered 403 (forbidden) and changes nothing: the seat
    keeps its status, owner, expiry and timer handle, and the pending
    timers are the same. *)
Theorem unlock_by_non_owner st seatId userId s :
  truthy userId = true ->
  seats st !! seatId = Some s -> status s = Locked -> lockOwner s <> userId ->
  unlock seatId userId st = (Fail 403 Forbidden, st).
Proof.
  intros Hu Hs Hl Ho. rewrite (unlock_own _ _ _ s), Hl by done.
  unfold strict_eq. by rewrite bool_decide_eq_false_2.
Qed.

Lemma unlock_by_non_owner_witness :
  unlock "3" bob st_locked = (Fail 403 Forbidden, st_locked).
Proof.
  apply (unlock_by_non_owner st_locked "3" bob
           (mkSeat Locked alice (Some 61000) (Some 0%nat)));
    [done | by vm_compute | done | done].
Defined.

(** C9. The seat listing changes no seat (nor anything else of the state)
    and has one view per seat.  The view shows the status; for a seat that
    is not locked its owner and expiry are [null] whatever the record
    holds, for a locked seat they are the stored ones.  The view has no
    field for the timer and does not depend on the stored handle. *)
Theorem snapshot_view st :
  snd (snapshot st) = st /\
  (forall seatId, fst (snapshot st) !! seatId = view <$> seats st !! seatId) /\
  (forall seatId s, seats st !! seatId = Some s ->
     exists v, fst (snapshot st) !! seatId = Some v /\
       view_status v = status s /\
       (status s <> Locked ->
          view_lockOwner v = JNull /\ view_lockExpiresAt v = None) /\
       (status s = Locked ->
          view_lockOwner v = lockOwner s /\
          view_lockExpiresAt v = lockExpiresAt s)) /\
  (forall stt owner e t t',
     view (mkSeat stt owner e t) = view (mkSeat stt owner e t')).
Proof.
  split_and!; try done.
  - intros seatId. apply lookup_fmap.
  - intros seatId s Hs. exists (view s). cbn. rewrite lookup_fmap, Hs.
    split_and!; try done; unfold view; cbn.
    + by destruct (status s).
    + by intros ->.
Qed.

Lemma snapshot_view_witness :
  (exists v, fst (snapshot st_stale) !! "1"%string = Some v /\
     view_status v = Booked /\
     view_lockOwner v = JNull /\ view_lockExpiresAt v = None) /\
  (exists v, fst (snapshot st_locked) !! "3"%string = Some v /\
     view_status v = Locked /\
     view_lockOwner v = alice /\ view_lockExpiresAt v = Some 61000).
Proof.
  split.
  - destruct (snapshot_view st_stale) as (_ & _ & H & _).
    destruct (H "1"%string (mkSeat Booked alice (Some 5) (Some 7%nat)))
      as (v & Hv & Hst & Hn & _); [by vm_compute |].
    exists v. destruct Hn as [Ho He]; [done |]. by split_and!.
  - destruct (snapshot_view st_locked) as (_ & _ & H & _).
    destruct (H "3"%string (mkSeat Locked alice (Some 61000) (Some 0%nat)))
      as (v & Hv & Hst & _ & Hl); [by vm_compute |].
    exists v. destruct Hl as [Ho He]; [done |]. by split_and!.
Defined.

(** C10. On a seat that is locked although its [lockExpiresAt] is [null],
    a lock request (carrying a [userId]) is answered 409 (conflict)
    whatever the time, the state unchanged, whereas a confirm request by
    the lock owner is answered 400 "expired" and makes the seat available
    with [null] owner, expiry and timer. *)
Theorem locked_without_expiry st seatId userId s :
  truthy userId = true ->
  seats st !! seatId = Some s -> status s = Locked ->
  lockExpiresAt s = None ->
  (forall now now',
     lock seatId userId now now' st = (Fail 409 Conflict, st)) /\
  (lockOwner s = userId -> forall now,
     confirm seatId userId now st =
       (Fail 400 Expired,
        mkState (<[seatId := fresh_seat]> (seats st))
                (cancel (timer s) (timers st)) (next_timer st))).
Proof.
  intros Hu Hs Hl He. split.
  - intros now now'. apply (lock_locked_valid _ _ _ _ _ s); try done.
    by rewrite He.
  - intros Ho now. apply (confirm_expired _ _ _ _ s); try done.
    by rewrite He.
Qed.

Lemma locked_without_expiry_witness :
  lock "1" alice 0 0 st_no_expiry = (Fail 409 Conflict, st_no_expiry) /\
  lock "1" bob 99999999 99999999 st_no_expiry
    = (Fail 409 Conflict, st_no_expiry) /\
  confirm "1" alice 0 st_no_expiry =
    (Fail 400 Expired, mkState {[ "1"%string := fresh_seat ]} ∅ 0%nat).
Proof.
  destruct (locked_without_expiry st_no_expiry "1" alice
              (mkSeat Locked alice None None)) as [Hlock Hconfirm];
    [done | by vm_compute | done | done |].
  destruct (locked_without_expiry st_no_expiry "1" bob
              (mkSeat Locked alice None None)) as [Hlock' _];
    [done | by vm_compute | done | done |].
  split_and!; [apply Hlock | apply Hlock' |].
  rewrite Hconfirm by done. by vm_compute.
Defined.

(** C6 (as stated, refuted). Seat 3 is locked by alice at time 1000, hence
    until 61000, with timer 0.  A lock request for the seat by bob arrives
    at 61000, before the timer has run: no confirm and no unlock has
    happened and the TTL has elapsed, yet the seat is not made available by
    the expiry callback.  The request released alice's lock itself,
    cancelled timer 0 and locked the seat for bob until 121001; timer 0 is
    no longer pending, so it changes nothing whenever the event loop gets to
    it, and the seat stays locked. *)
Lemma expiry_preempted_by_reclaim :
  lock "3" alice 1000 1000 init = (Ok200 (Some 61000), st_locked) /\
  seats (run st_locked [ELock "3" bob 61000 61001]) !! "3"%string
    = Some (mkSeat Locked bob (Some 121001) (Some 1%nat)) /\
  timers (run st_locked [ELock "3" bob 61000 61001]) !! 0%nat = None /\
  (forall now,
     fire 0%nat now (run st_locked [ELock "3" bob 61000 61001])
       = run st_locked [ELock "3" bob 61000 61001]) /\
  seats (fire 0%nat 61001 (run st_locked [ELock "3" bob 61000 61001]))
    !! "3"%string <> Some fresh_seat.
Proof.
  split_and!; by vm_compute.
Qed.

(** C6 (amended). After a lock request succeeded in a reachable state, the
    seat is locked until the time of acquisition plus [LOCK_TTL_MS] and a
    timer due at that time is pending.  Whatever happens next short of a
    confirm or an unlock on that seat and of a lock request on it at or
    after the expiry (requests on other seats, listings, other timers, lock
    requests on the seat before the expiry, which are rejected), the seat
    stays locked and its timer pending; the timer does nothing before it is
    due, and when it runs, at any time from then on, its callback makes the
    seat available with [null] owner, expiry and timer — no request is
    involved.  The callback checks the status first: on a seat that is not
    locked, or under an id that holds no seat, it changes nothing. *)
Theorem expiry_resets_seat :
  (forall st seatId userId now now' x st1 es tf,
     reachable st ->
     lock seatId userId now now' st = (Ok200 x, st1) ->
     Forall (quiet seatId (next_timer st) (now' + LOCK_TTL_MS)) es ->
     now' + LOCK_TTL_MS <= tf ->
     let t := next_timer st in
     let e := now' + LOCK_TTL_MS in
     let locked := mkSeat Locked userId (Some e) (Some t) in
     x = Some e /\
     seats st1 !! seatId = Some locked /\
     timers st1 !! t = Some (seatId, e) /\
     seats (run st1 es) !! seatId = Some locked /\
     timers (run st1 es) !! t = Some (seatId, e) /\
     (forall tf', tf' < e -> fire t tf' (run st1 es) = run st1 es) /\
     seats (fire t tf (run st1 es)) !! seatId = Some fresh_seat /\
     timers (fire t tf (run st1 es)) !! t = None) /\
  (forall st seatId s,
     seats st !! seatId = Some s -> status s = Locked ->
     seats (expiry_callback seatId st) !! seatId = Some fresh_seat) /\
  (forall st seatId s,
     seats st !! seatId = Some s -> status s <> Locked ->
     expiry_callback seatId st = st) /\
  (forall st seatId,
     seats st !! seatId = None -> expiry_callback seatId st = st).
Proof.
  split_and!.
  - intros st seatId userId now now' x st1 es tf Hr Hlock Hq Htf t e locked.
    pose proof (reachable_timers_ok _ Hr) as Hok.
    assert (timers_ok st1) as Hok1.
    { replace st1 with (step st (ELock seatId userId now now'))
        by (cbn; by rewrite Hlock).
      by apply timers_ok_step. }
    destruct (lock_success_inv _ _ _ _ _ _ _ Hlock)
      as (Hu & s & Hs & Hnb & -> & Hst1).
    assert (seats st1 !! seatId = Some locked) as Hs1
      by (subst st1; cbn; apply lookup_insert_eq).
    assert (seats (run st1 es) !! seatId = Some locked) as Hs2
      by (by apply quiet_run).
    pose proof (timers_ok_run es _ Hok1) as Hok2.
    assert (timers (run st1 es) !! t = Some (seatId, e)) as Ht2.
    { destruct Hok2 as [H1 _]. specialize (H1 _ _ Hs2). cbn in H1.
      destruct H1 as (t0 & e0 & ? & ? & ?). by simplify_eq. }
    split_and!; try done.
    + subst st1; cbn. apply lookup_insert_eq.
    + intros tf' Htf'. apply fire_not_due. intros k due Hk.
      rewrite Ht2 in Hk. simplify_eq. done.
    + destruct (fire_due _ _ _ _ _ Hok2 Ht2 Htf) as (s2 & _ & _ & _ & ->).
      cbn. apply lookup_insert_eq.
    + destruct (fire_due _ _ _ _ _ Hok2 Ht2 Htf) as (s2 & Hs2' & _ & Hts & ->).
      cbn. rewrite Hts. cbn. apply lookup_delete_eq.
  - intros st seatId s Hs Hl. rewrite (expiry_callback_locked _ _ s) by done.
    cbn. apply lookup_insert_eq.
  - intros st seatId s Hs Hl. apply expiry_callback_not_locked.
    rewrite (seat_at_own _ _ s) by done. cbn. congruence.
  - intros st seatId Hs. apply expiry_callback_not_locked.
    by rewrite seat_at_not_own.
Qed.

Lemma expiry_resets_seat_witness :
  seats (fire 0%nat 61000
           (run st_locked
              [ELock "3" bob 60999 60999; ELock "4" bob 1500 1500;
               EConfirm "4" bob 1600; ESnapshot; EFire 1%nat 61500]))
    !! "3"%string = Some fresh_seat /\
  expiry_callback "3" st_booked = st_booked /\
  expiry_callback "11" st_locked = st_locked.
Proof.
  destruct expiry_resets_seat as (Hfire & _ & Hother & Hnone).
  split_and!.
  - refine (proj1 (proj2 (proj2 (proj2 (proj2 (proj2 (proj2
      (Hfire init "3"%string alice 1000 1000 (Some 61000) st_locked
         [ELock "3" bob 60999 60999; ELock "4" bob 1500 1500;
          EConfirm "4" bob 1600; ESnapshot; EFire 1%nat 61500]
         61000 reachable_init _ _ _)))))))).
    + by vm_compute.
    + constructor; [right; by vm_compute |].
      constructor; [by left |].
      constructor; [done |].
      constructor; [exact I |].
      constructor; [done | constructor].
    + by vm_compute.
  - apply (Hother st_booked "3"%string (mkSeat Booked JNull None None));
      [by vm_compute | done].
  - apply Hnone. by vm_compute.
Defined.

(** * Further properties of the seat service *)

Lemma reachable_available_fresh st seatId s :
  reachable st -> seats st !! seatId = Some s -> status s = Available ->
  s = fresh_seat.
Proof.
  intros Hr Hs Ha.
  destruct (reachable_state_ok _ Hr _ _ Hs) as (_ & _ & Hnull & _).
  destruct (reachable_timers_ok _ Hr) as [Ht _]. specialize (Ht _ _ Hs).
  rewrite Ha in Ht. destruct Hnull as [Ho He]; [congruence |].
  destruct s; cbn in *. by subst.
Qed.

Lemma reachable_next_timer_free st :
  reachable st -> timers st !! next_timer st = None.
Proof.
  intros Hr. destruct (reachable_timers_ok _ Hr) as [_ H2].
  destruct (timers st !! next_timer st) as [[k due]|] eqn:Ht; [| done].
  destruct (H2 _ _ _ Ht) as [? _]. lia.
Qed.

Lemma lapsed_true_inv o now :
  lapsed o now = true -> exists e, o = Some e /\ e <> 0 /\ e <= now.
Proof.
  destruct o as [e|]; cbn; [| done].
  destruct (Z.eqb_spec e 0), (Z.leb_spec e now); cbn; try done.
  intros _. by exists e.
Qed.

Lemma expired_false_inv o now :
  expired o now = false -> exists e, o = Some e /\ e <> 0 /\ now < e.
Proof.
  destruct o as [e|]; cbn; [| done].
  destruct (Z.eqb_spec e 0), (Z.leb_spec e now); cbn; try done.
  intros _. by exists e.
Qed.

Lemma expired_false_future e now : e <> 0 -> now < e -> expired (Some e) now = false.
Proof.
  intros H0 H. cbn. destruct (Z.eqb_spec e 0), (Z.leb_spec e now); cbn; lia || done.
Qed.

(** X1. A lock request succeeds exactly when it carries a non-empty
    [userId] and the seat exists and is either available or locked with an
    expiry that is set and not later than the clock: never on a booked seat,
    never on a seat whose lock is still valid. *)
Theorem lock_succeeds_iff seatId userId now now' st :
  (exists x, fst (lock seatId userId now now' st) = Ok200 x) <->
  truthy userId = true /\
  exists s, seats st !! seatId = Some s /\
    (status s = Available \/
     status s = Locked /\
       exists e, lockExpiresAt s = Some e /\ e <> 0 /\ e <= now).
Proof.
  split.
  - intros [x Hx].
    destruct (truthy userId) eqn:Hu; [| by rewrite lock_missing_user in Hx].
    split; [done |].
    destruct (seats st !! seatId) as [s|] eqn:Hs.
    + exists s. split; [done |]. destruct (status s) eqn:Hst; [by left | |].
      * right. split; [done |]. apply lapsed_true_inv.
        destruct (lapsed (lockExpiresAt s) now) eqn:Hv; [done |].
        by rewrite (lock_locked_valid _ _ _ _ _ s) in Hx.
      * by rewrite (lock_booked _ _ _ _ _ s) in Hx.
    + destruct (seat_at st seatId) as [s| |] eqn:Hat.
      * apply seat_at_own_inv in Hat. congruence.
      * by rewrite lock_inherited in Hx.
      * by rewrite lock_undefined in Hx.
  - intros (Hu & s & Hs & [Ha | (Hl & e & He & H0 & Hnow)]).
    + rewrite (lock_available _ _ _ _ _ s), (acquire_available _ _ _ _ s)
        by done. by eexists.
    + rewrite (lock_locked_lapsed _ _ _ _ _ s),
        (acquire_after_release _ _ _ _ s); try done; [by eexists |].
      rewrite He. by apply lapsed_true_past.
Qed.

Lemma lock_succeeds_iff_witness :
  (exists x, fst (lock "5" bob 7 7 st_locked) = Ok200 x) /\
  ~ (exists x, fst (lock "3" bob 60999 60999 st_locked) = Ok200 x).
Proof.
  split.
  - apply (proj2 (lock_succeeds_iff "5" bob 7 7 st_locked)).
    split; [done |]. exists fresh_seat. split; [by vm_compute | by left].
  - intros (_ & s & Hs & H)%(proj1 (lock_succeeds_iff _ _ _ _ _)).
    vm_compute in Hs. injection Hs as <-. cbn in H.
    destruct H as [? | (_ & e & [= <-] & _ & ?)]; [done | lia].
Defined.

(** X2. In a reachable state, locking an available seat with a non-empty
    [userId] answers 200 with the expiry [now' + LOCK_TTL_MS], stores owner,
    expiry and the handle of one new timer due at that expiry, and cancels
    nothing: the handle was not in use and the pending timers grow by
    exactly one. *)
Theorem lock_available_acquires st seatId userId now now' s :
  reachable st -> truthy userId = true ->
  seats st !! seatId = Some s -> status s = Available ->
  lock seatId userId now now' st =
    (Ok200 (Some (now' + LOCK_TTL_MS)),
     mkState
       (<[seatId := mkSeat Locked userId (Some (now' + LOCK_TTL_MS))
                      (Some (next_timer st))]> (seats st))
       (<[next_timer st := (seatId, now' + LOCK_TTL_MS)]> (timers st))
       (S (next_timer st))) /\
  timers st !! next_timer st = None /\
  size (timers (snd (lock seatId userId now now' st))) = S (size (timers st)).
Proof.
  intros Hr Hu Hs Ha.
  pose proof (reachable_available_fresh _ _ _ Hr Hs Ha) as ->.
  pose proof (reachable_next_timer_free _ Hr) as Hfree.
  rewrite (lock_available _ _ _ _ _ fresh_seat),
    (acquire_available _ _ _ _ fresh_seat) by done.
  split_and!; [done | done |]. cbn. by apply map_size_insert_None.
Qed.

Lemma lock_available_acquires_witness :
  lock "5" bob 7 8 st_locked =
    (Ok200 (Some 60008),
     mkState
       (<["5"%string := mkSeat Locked bob (Some 60008) (Some 1%nat)]>
          (seats st_locked))
       (<[1%nat := ("5"%string, 60008)]> (timers st_locked))
       2%nat).
Proof.
  destruct (lock_available_acquires st_locked "5" bob 7 8 fresh_seat)
    as (H & _ & _); [| done | by vm_compute | done | exact H].
  apply (reachable_step init (ELock "3" alice 1000 1000)). constructor.
Defined.

(** X3. A confirm request succeeds exactly when it carries a non-empty
    [userId] that is the owner of the lock on an existing seat whose expiry
    is set and later than the clock.  It then answers 200, makes the seat
    booked with [null] owner, expiry and timer, and the timer the seat
    stored is no longer pending; nothing else changes. *)
Theorem confirm_books_iff seatId userId now st :
  ((exists x, fst (confirm seatId userId now st) = Ok200 x) <->
   truthy userId = true /\
   exists s e, seats st !! seatId = Some s /\ status s = Locked /\
     lockOwner s = userId /\ lockExpiresAt s = Some e /\ e <> 0 /\ now < e) /\
  (forall s e,
     truthy userId = true -> seats st !! seatId = Some s ->
     status s = Locked -> lockOwner s = userId ->
     lockExpiresAt s = Some e -> e <> 0 -> now < e ->
     confirm seatId userId now st =
       (Ok200 None,
        mkState (<[seatId := mkSeat Booked JNull None None]> (seats st))
                (cancel (timer s) (timers st)) (next_timer st)) /\
     forall t, timer s = Some t ->
       timers (snd (confirm seatId userId now st)) !! t = None).
Proof.
  assert (forall s e,
     truthy userId = true -> seats st !! seatId = Some s ->
     status s = Locked -> lockOwner s = userId ->
     lockExpiresAt s = Some e -> e <> 0 -> now < e ->
     confirm seatId userId now st =
       (Ok200 None,
        mkState (<[seatId := mkSeat Booked JNull None None]> (seats st))
                (cancel (timer s) (timers st)) (next_timer st))) as Hbook.
  { intros s e Hu Hs Hl Ho He H0 Hnow.
    rewrite (confirm_own _ _ _ _ s), Hl by done.
    unfold strict_eq. rewrite bool_decide_eq_true_2 by done. cbn.
    by rewrite He, expired_false_future. }
  split; [split |].
  - intros [x Hx].
    destruct (truthy userId) eqn:Hu; [| by rewrite confirm_missing_user in Hx].
    split; [done |].
    destruct (seats st !! seatId) as [s|] eqn:Hs;
      [| unfold confirm, seat_at in Hx; rewrite Hu, Hs in Hx; cbn in Hx;
         by case_bool_decide].
    rewrite (confirm_own _ _ _ _ s) in Hx by done.
    destruct (status s) eqn:Hst; try done.
    unfold strict_eq in Hx. case_bool_decide as Ho; [| done]. cbn in Hx.
    destruct (expired (lockExpiresAt s) now) eqn:He; [done |].
    destruct (expired_false_inv _ _ He) as (e & ? & ? & ?).
    by exists s, e.
  - intros (Hu & s & e & Hs & Hl & Ho & He & H0 & Hnow).
    rewrite (Hbook s e) by done. by eexists.
  - intros s e Hu Hs Hl Ho He H0 Hnow. rewrite (Hbook s e) by done.
    split; [done |]. intros t Ht. cbn. rewrite Ht. apply lookup_delete_eq.
Qed.

Lemma confirm_books_iff_witness :
  confirm "3" alice 60999 st_locked =
    (Ok200 None,
     mkState (<["3"%string := mkSeat Booked JNull None None]> (seats st_locked))
             ∅ 1%nat) /\
  ~ (exists x, fst (confirm "3" bob 60999 st_locked) = Ok200 x).
Proof.
  destruct (confirm_books_iff "3" alice 60999 st_locked) as [_ Hbook].
  destruct (confirm_books_iff "3" bob 60999 st_locked) as [[Honly _] _].
  split.
  - destruct (Hbook (mkSeat Locked alice (Some 61000) (Some 0%nat)) 61000)
      as [-> _]; [done | by vm_compute | done | done | done | lia | lia |].
    by vm_compute.
  - intros (_ & s & e & Hs & _ & Ho & _)%Honly.
    vm_compute in Hs. injection Hs as <-. done.
Defined.

(** X4. An unlock request succeeds exactly when it carries a non-empty
    [userId] that is the owner of the lock on an existing locked seat; the
    expiry plays no part, so the owner can release a lock that has run out.
    It then answers 200, makes the seat available with [null] owner, expiry
    and timer, and the timer the seat stored is no longer pending. *)
Theorem unlock_releases_iff seatId userId st :
  (fst (unlock seatId userId st) = Ok200 None <->
   truthy userId = true /\
   exists s, seats st !! seatId = Some s /\ status s = Locked /\
     lockOwner s = userId) /\
  (forall s,
     truthy userId = true -> seats st !! seatId = Some s ->
     status s = Locked -> lockOwner s = userId ->
     unlock seatId userId st =
       (Ok200 None,
        mkState (<[seatId := fresh_seat]> (seats st))
                (cancel (timer s) (timers st)) (next_timer st)) /\
     forall t, timer s = Some t ->
       timers (snd (unlock seatId userId st)) !! t = None).
Proof.
  assert (forall s,
     truthy userId = true -> seats st !! seatId = Some s ->
     status s = Locked -> lockOwner s = userId ->
     unlock seatId userId st =
       (Ok200 None,
        mkState (<[seatId := fresh_seat]> (seats st))
                (cancel (timer s) (timers st)) (next_timer st))) as Hrel.
  { intros s Hu Hs Hl Ho. rewrite (unlock_own _ _ _ s), Hl by done.
    unfold strict_eq. by rewrite bool_decide_eq_true_2. }
  split; [split |].
  - intros Hx.
    destruct (truthy userId) eqn:Hu; [| by rewrite unlock_missing_user in Hx].
    split; [done |].
    destruct (seats st !! seatId) as [s|] eqn:Hs;
      [| unfold unlock, seat_at in Hx; rewrite Hu, Hs in Hx; cbn in Hx;
         by case_bool_decide].
    rewrite (unlock_own _ _ _ s) in Hx by done.
    destruct (status s) eqn:Hst; try done.
    unfold strict_eq in Hx. case_bool_decide as Ho; [| done].
    by exists s.
  - intros (Hu & s & Hs & Hl & Ho). by rewrite (Hrel s).
  - intros s Hu Hs Hl Ho. rewrite (Hrel s) by done.
    split; [done |]. intros t Ht. cbn. rewrite Ht. apply lookup_delete_eq.
Qed.

Lemma unlock_releases_iff_witness :
  unlock "3" alice st_locked =
    (Ok200 None,
     mkState (<["3"%string := fresh_seat]> (seats st_locked)) ∅ 1%nat) /\
  fst (unlock "3" bob st_locked) <> Ok200 None.
Proof.
  destruct (unlock_releases_iff "3" alice st_locked) as [_ Hrel].
  destruct (unlock_releases_iff "3" bob st_locked) as [[Honly _] _].
  split.
  - destruct (Hrel (mkSeat Locked alice (Some 61000) (Some 0%nat)))
      as [-> _]; [done | by vm_compute | done | done |].
    by vm_compute.
  - intros (_ & s & Hs & _ & Ho)%Honly.
    vm_compute in Hs. injection Hs as <-. done.
Defined.

(** X5. A confirm request by anyone but the lock owner on a locked seat is
    answered 403 and changes nothing, whatever the clock: the owner is
    checked before the expiry, so a lock that has run out is not released by
    a stranger's confirm. *)
Theorem confirm_by_non_owner st seatId userId now s :
  truthy userId = true ->
  seats st !! seatId = Some s -> status s = Locked -> lockOwner s <> userId ->
  confirm seatId userId now st = (Fail 403 Forbidden, st).
Proof.
  intros Hu Hs Hl Ho. rewrite (confirm_own _ _ _ _ s), Hl by done.
  unfold strict_eq. by rewrite bool_decide_eq_false_2.
Qed.

Lemma confirm_by_non_owner_witness :
  confirm "3" bob 999999 st_locked = (Fail 403 Forbidden, st_locked).
Proof.
  apply (confirm_by_non_owner st_locked "3" bob 999999
           (mkSeat Locked alice (Some 61000) (Some 0%nat)));
    [done | by vm_compute | done | done].
Defined.

(** X6. Errors have no side effect, with one exception.  Whenever a lock or
    an unlock request is answered with an error the state is unchanged; the
    same holds for a confirm request unless the error is "expired" (then the
    lock was released).  The status code sent is determined by the kind of
    error: 404 not found, 409 conflict, 403 forbidden, 400 otherwise; no
    other code is ever sent with an error. *)
Theorem failures_change_nothing :
  (forall seatId userId now now' st code kind,
     fst (lock seatId userId now now' st) = Fail code kind ->
     snd (lock seatId userId now now' st) = st /\ code = status_code kind) /\
  (forall seatId userId now st code kind,
     fst (confirm seatId userId now st) = Fail code kind ->
     code = status_code kind /\
     (kind <> Expired -> snd (confirm seatId userId now st) = st)) /\
  (forall seatId userId st code kind,
     fst (unlock seatId userId st) = Fail code kind ->
     snd (unlock seatId userId st) = st /\ code = status_code kind).
Proof.
  split_and!.
  - intros seatId userId now now' st code kind.
    destruct (truthy userId) eqn:Hu;
      [| rewrite lock_missing_user by done; by intros [= <- <-]].
    destruct (seat_at st seatId) as [s| |] eqn:Hat;
      [| rewrite lock_inherited by done; by intros [= <- <-]
       | rewrite lock_undefined by done; by intros [= <- <-]].
    apply seat_at_own_inv in Hat. destruct (status s) eqn:Hst.
    + by rewrite (lock_available _ _ _ _ _ s), (acquire_available _ _ _ _ s).
    + destruct (lapsed (lockExpiresAt s) now) eqn:Hv.
      * by rewrite (lock_locked_lapsed _ _ _ _ _ s),
          (acquire_after_release _ _ _ _ s).
      * rewrite (lock_locked_valid _ _ _ _ _ s) by done. by intros [= <- <-].
    + rewrite (lock_booked _ _ _ _ _ s) by done. by intros [= <- <-].
  - intros seatId userId now st code kind.
    destruct (truthy userId) eqn:Hu;
      [| rewrite confirm_missing_user by done; by intros [= <- <-]].
    destruct (seat_at st seatId) as [s| |] eqn:Hat;
      [| unfold confirm; rewrite Hu, Hat; by intros [= <- <-] ..].
    apply seat_at_own_inv in Hat. rewrite (confirm_own _ _ _ _ s) by done.
    destruct (status s); [by intros [= <- <-] | | by intros [= <- <-]].
    destruct (negb _); [by intros [= <- <-] |].
    destruct (expired _ _); [| done]. by intros [= <- <-].
  - intros seatId userId st code kind.
    destruct (truthy userId) eqn:Hu;
      [| rewrite unlock_missing_user by done; by intros [= <- <-]].
    destruct (seat_at st seatId) as [s| |] eqn:Hat;
      [| unfold unlock; rewrite Hu, Hat; by intros [= <- <-] ..].
    apply seat_at_own_inv in Hat. rewrite (unlock_own _ _ _ s) by done.
    destruct (status s); [by intros [= <- <-] | | by intros [= <- <-]].
    destruct (negb _); [by intros [= <- <-] | done].
Qed.

Lemma failures_change_nothing_witness :
  snd (lock "3" bob 1001 1001 st_locked) = st_locked /\
  snd (confirm "3" bob 1001 st_locked) = st_locked /\
  snd (unlock "7" alice st_locked) = st_locked.
Proof.
  destruct failures_change_nothing as (Hlock & Hconfirm & Hunlock).
  split_and!.
  - by apply (Hlock "3"%string bob 1001 1001 st_locked 409 Conflict).
  - by apply (Hconfirm "3"%string bob 1001 st_locked 403 Forbidden).
  - by apply (Hunlock "7"%string alice st_locked 400 NotLocked).
Defined.

(** X7. In every reachable state the pending timers and the locked seats
    correspond one to one: a locked seat stores the handle of a pending
    timer that was scheduled for it and is due at its [lockExpiresAt]; a
    seat that is not locked stores no handle; every pending timer is the one
    stored by the locked seat it was scheduled for, so no seat ever has two
    pending timers; and every pending handle is below [next_timer], so a
    new timer never reuses the handle of a pending one. *)
Theorem reachable_timers st :
  reachable st ->
  (forall seatId s, seats st !! seatId = Some s -> status s = Locked ->
     exists t e, timer s = Some t /\ lockExpiresAt s = Some e /\
       timers st !! t = Some (seatId, e)) /\
  (forall seatId s, seats st !! seatId = Some s -> status s <> Locked ->
     timer s = None) /\
  (forall t seatId due, timers st !! t = Some (seatId, due) ->
     (t < next_timer st)%nat /\
     exists s, seats st !! seatId = Some s /\ status s = Locked /\
       timer s = Some t /\ lockExpiresAt s = Some due) /\
  (forall t t' seatId due due',
     timers st !! t = Some (seatId, due) ->
     timers st !! t' = Some (seatId, due') -> t = t').
Proof.
  intros Hr. destruct (reachable_timers_ok _ Hr) as [H1 H2].
  assert (forall t seatId due, timers st !! t = Some (seatId, due) ->
     (t < next_timer st)%nat /\
     exists s, seats st !! seatId = Some s /\ status s = Locked /\
       timer s = Some t /\ lockExpiresAt s = Some due) as H3.
  { intros t seatId due Ht.
    destruct (H2 _ _ _ Ht) as (Hlt & s & Hs & Hl & Hts). split; [done |].
    exists s. split_and!; try done.
    specialize (H1 _ _ Hs). rewrite Hl in H1.
    destruct H1 as (t0 & e & Ht0 & He & Hp).
    assert (t0 = t) as -> by (rewrite Hts in Ht0; by injection Ht0).
    pose proof (eq_trans (eq_sym Hp) Ht) as [= ->]. done. }
  split_and!.
  - intros seatId s Hs Hl. specialize (H1 _ _ Hs). by rewrite Hl in H1.
  - intros seatId s Hs Hl. specialize (H1 _ _ Hs).
    by destruct (status s).
  - done.
  - intros t t' seatId due due' Ht Ht'.
    destruct (H3 _ _ _ Ht) as (_ & s & Hs & _ & Hts & _).
    destruct (H3 _ _ _ Ht') as (_ & s' & Hs' & _ & Hts' & _).
    rewrite Hs in Hs'. injection Hs' as <-. rewrite Hts in Hts'.
    by injection Hts'.
Qed.

Lemma reachable_timers_witness :
  exists t e, timer (mkSeat Locked alice (Some 61000) (Some 0%nat)) = Some t /\
    lockExpiresAt (mkSeat Locked alice (Some 61000) (Some 0%nat)) = Some e /\
    timers st_locked !! t = Some ("3"%string, e).
Proof.
  destruct (reachable_timers st_locked) as (H & _).
  - apply (reachable_step init (ELock "3" alice 1000 1000)). constructor.
  - apply (H "3"%string); [by vm_compute | done].
Defined.

Lemma init_seats_lookup k :
  seats init !! k =
    if bool_decide (k ∈ ["1"; "2"; "3"; "4"; "5"; "6"; "7"; "8"; "9"; "10"]%string)
    then Some fresh_seat else None.
Proof.
  case_bool_decide as Hk.
  - rewrite !elem_of_cons, elem_of_nil in Hk.
    destruct Hk as [->|[->|[->|[->|[->|[->|[->|[->|[->|[->|[]]]]]]]]]]];
      by vm_compute.
  - destruct (seats init !! k) as [s|] eqn:Hs; [| done]. exfalso. apply Hk.
    revert Hs. unfold init, init_seats, SEAT_COUNT. cbn.
    repeat (rewrite lookup_insert; case_decide as Heq;
            [intros _; rewrite <- Heq; compute_done | clear Heq]).
    by rewrite lookup_empty.
Qed.

Lemma step_dom st e : dom (seats (step st e)) = dom (seats st).
Proof.
  destruct (step_seats st e) as [->|(k & s & s' & Hk & _ & ->)]; [done |].
  rewrite dom_insert_L. apply subseteq_union_1_L, singleton_subseteq_l.
  by apply elem_of_dom_2 in Hk.
Qed.

(** X8. The service never creates and never removes a seat: every step
    keeps the set of seat ids, and in every reachable state the seats are
    exactly those with the ids "1" to "10" (so ids such as "0", "01" or
    "11" never name a seat). *)
Theorem seats_fixed :
  (forall st e, dom (seats (step st e)) = dom (seats st)) /\
  (forall st, reachable st -> forall k,
     is_Some (seats st !! k) <->
     k ∈ ["1"; "2"; "3"; "4"; "5"; "6"; "7"; "8"; "9"; "10"]%string).
Proof.
  split; [apply step_dom |].
  intros st Hr k.
  assert (dom (seats st) = dom (seats init)) as Hdom.
  { induction Hr as [|st e _ IH]; [done |]. by rewrite step_dom. }
  rewrite <- elem_of_dom, Hdom, elem_of_dom, init_seats_lookup.
  case_bool_decide; split; try done.
Qed.

Lemma seats_fixed_witness :
  is_Some (seats st_booked !! "10"%string) /\
  ~ is_Some (seats st_booked !! "01"%string).
Proof.
  destruct seats_fixed as [_ H].
  assert (reachable st_booked) as Hr.
  { apply (reachable_step _ (EConfirm "3" alice 2000)).
    apply (reachable_step _ (ELock "3" alice 1000 1000)). constructor. }
  split.
  - apply (H _ Hr). compute_done.
  - intros Hk%(H _ Hr). revert Hk. compute_done.
Defined.

(** The timer stored in one seat survives the clearing of the timer stored
    in another seat, and is not the next handle to be handed out. *)
Lemma stored_timer_kept st seatId s k sk t :
  timers_ok st -> seats st !! seatId = Some s -> timer s = Some t ->
  seats st !! k = Some sk -> k <> seatId ->
  cancel (timer sk) (timers st) !! t = timers st !! t /\ t <> next_timer st.
Proof.
  intros Hok Hs Ht Hk Hne. pose proof Hok as [H1 H2].
  pose proof (H1 _ _ Hs) as Hl.
  destruct (status s) eqn:Hst; [congruence | | congruence].
  destruct Hl as (t0 & e & Ht0 & _ & Hp).
  assert (t0 = t) as -> by (rewrite Ht in Ht0; by injection Ht0).
  split.
  - destruct (timer sk) as [tk|] eqn:Htk; cbn; [| done].
    apply lookup_delete_ne. intros Heq. subst tk.
    pose proof (H1 _ _ Hk) as Hlk.
    destruct (status sk); [congruence | | congruence].
    destruct Hlk as (t1 & e1 & Ht1 & _ & Hp1).
    assert (t1 = t) as -> by (rewrite Htk in Ht1; by injection Ht1).
    pose proof (eq_trans (eq_sym Hp) Hp1) as [= ->]. done.
  - destruct (H2 _ _ _ Hp) as [Hlt _]. lia.
Qed.

(** X9. In a reachable state an event leaves every seat it does not
    concern exactly as it is — a request concerns the seat named in its
    path, a timer the seat it was scheduled for — and leaves the timer
    stored in such a seat pending: work on one seat never cancels the expiry
    of another. *)
Theorem other_seats_untouched st ev seatId s :
  reachable st -> seats st !! seatId = Some s ->
  concerns st ev <> Some seatId ->
  seats (step st ev) !! seatId = Some s /\
  (forall t, timer s = Some t ->
     timers (step st ev) !! t = timers st !! t).
Proof.
  intros Hr Hs Hc. pose proof (reachable_timers_ok _ Hr) as Hok.
  destruct ev as [k u now now'|k u now|k u| |t' now]; cbn in *.
  - assert (k <> seatId) as Hne by congruence.
    rewrite lock_frame by done. split; [done |]. intros t Ht.
    destruct (lock_cases k u now now' st)
      as [(code & err & ->)|(sk & Hk & _ & _ & ->)]; cbn; [done |].
    destruct (stored_timer_kept _ _ _ _ _ _ Hok Hs Ht Hk Hne) as [Hkeep Hnx].
    by rewrite lookup_insert_ne.
  - assert (k <> seatId) as Hne by congruence.
    rewrite confirm_frame by done. split; [done |]. intros t Ht.
    destruct (confirm_cases k u now st)
      as [(code & err & ->)|(sk & s' & Hk & _ & _ & ->)]; cbn; [done |].
    by destruct (stored_timer_kept _ _ _ _ _ _ Hok Hs Ht Hk Hne).
  - assert (k <> seatId) as Hne by congruence.
    rewrite unlock_frame by done. split; [done |]. intros t Ht.
    destruct (unlock_cases k u st)
      as [(code & err & ->)|(sk & Hk & _ & ->)]; cbn; [done |].
    by destruct (stored_timer_kept _ _ _ _ _ _ Hok Hs Ht Hk Hne).
  - done.
  - destruct (timers st !! t') as [[k due]|] eqn:Ht';
      [| unfold fire; by rewrite Ht'].
    assert (k <> seatId) as Hne by (cbn in Hc; congruence).
    destruct (Z.leb_spec due now) as [Hd|Hd].
    + destruct (fire_due _ _ _ _ _ Hok Ht' Hd) as (sk & Hk & _ & _ & ->).
      cbn. rewrite lookup_insert_ne by done. split; [done |]. intros t Ht.
      by destruct (stored_timer_kept _ _ _ _ _ _ Hok Hs Ht Hk Hne).
    + rewrite fire_not_due; [done |]. intros ? ? ?. simplify_eq. lia.
Qed.

Lemma other_seats_untouched_witness :
  seats (step st_locked (ELock "4" bob 70000 70000)) !! "3"%string
    = Some (mkSeat Locked alice (Some 61000) (Some 0%nat)) /\
  timers (step st_locked (ELock "4" bob 70000 70000)) !! 0%nat
    = timers st_locked !! 0%nat.
Proof.
  destruct (other_seats_untouched st_locked (ELock "4" bob 70000 70000) "3"
              (mkSeat Locked alice (Some 61000) (Some 0%nat))) as [H1 H2];
    [| by vm_compute | done |].
  - apply (reachable_step init (ELock "3" alice 1000 1000)). constructor.
  - split; [exact H1 | by apply H2].
Defined.

(** X10. What can happen to one seat in one step, in any state: nothing;
    or a lock request for it with a non-empty [userId] locks it — it was
    available, or locked with a lapsed expiry — for that user until the
    time of acquisition plus [LOCK_TTL_MS]; or a confirm request by the
    owner of its unexpired lock books it; or its lock is released, by an
    unlock request of the owner, a confirm request of the owner after the
    expiry, or a due timer scheduled for it.  In particular a seat is never
    booked straight from available, a booked seat never changes, and the
    expiry of a lock is never extended. *)
Theorem seat_edges st ev seatId s s' :
  seats st !! seatId = Some s -> seats (step st ev) !! seatId = Some s' ->
  s' = s \/
  (exists userId now now',
     ev = ELock seatId userId now now' /\ truthy userId = true /\
     (status s = Available \/
      status s = Locked /\ lapsed (lockExpiresAt s) now = true) /\
     s' = mkSeat Locked userId (Some (now' + LOCK_TTL_MS))
            (Some (next_timer st))) \/
  (exists userId now,
     ev = EConfirm seatId userId now /\ truthy userId = true /\
     status s = Locked /\ lockOwner s = userId /\
     expired (lockExpiresAt s) now = false /\
     s' = mkSeat Booked JNull None None) \/
  (status s = Locked /\ s' = fresh_seat /\
   ((exists userId, ev = EUnlock seatId userId /\ truthy userId = true /\
       lockOwner s = userId) \/
    (exists userId now, ev = EConfirm seatId userId now /\
       truthy userId = true /\ lockOwner s = userId /\
       expired (lockExpiresAt s) now = true) \/
    (exists t now due, ev = EFire t now /\
       timers st !! t = Some (seatId, due) /\ due <= now))).
Proof.
  intros Hs. destruct ev as [k u now now'|k u now|k u| |t now]; cbn.
  - destruct (decide (k = seatId)) as [->|Hne];
      [| rewrite lock_frame by done; cbn; left; congruence].
    destruct (truthy u) eqn:Hu;
      [| rewrite lock_missing_user by done; cbn; left; congruence].
    destruct (status s) eqn:Hst.
    + rewrite (lock_available _ _ _ _ _ s), (acquire_available _ _ _ _ s)
        by done. cbn. rewrite lookup_insert_eq. intros [= <-].
      right; left. exists u, now, now'. split_and!; auto.
    + destruct (lapsed (lockExpiresAt s) now) eqn:Hv.
      * rewrite (lock_locked_lapsed _ _ _ _ _ s),
          (acquire_after_release _ _ _ _ s) by done.
        cbn. rewrite lookup_insert_eq. intros [= <-].
        right; left. exists u, now, now'. split_and!; auto.
      * rewrite (lock_locked_valid _ _ _ _ _ s) by done. cbn; left; congruence.
    + rewrite (lock_booked _ _ _ _ _ s) by done. cbn; left; congruence.
  - destruct (decide (k = seatId)) as [->|Hne];
      [| rewrite confirm_frame by done; cbn; left; congruence].
    destruct (truthy u) eqn:Hu;
      [| rewrite confirm_missing_user by done; cbn; left; congruence].
    rewrite (confirm_own _ _ _ _ s) by done.
    destruct (status s) eqn:Hst; [cbn; left; congruence | | cbn; left; congruence].
    unfold strict_eq. case_bool_decide as Ho; cbn; [| cbn; left; congruence].
    destruct (expired (lockExpiresAt s) now) eqn:He; cbn;
      rewrite lookup_insert_eq; intros [= <-].
    + do 3 right. split_and!; try done. right; left. by exists u, now.
    + right; right; left. by exists u, now.
  - destruct (decide (k = seatId)) as [->|Hne];
      [| rewrite unlock_frame by done; cbn; left; congruence].
    destruct (truthy u) eqn:Hu;
      [| rewrite unlock_missing_user by done; cbn; left; congruence].
    rewrite (unlock_own _ _ _ s) by done.
    destruct (status s) eqn:Hst; [cbn; left; congruence | | cbn; left; congruence].
    unfold strict_eq. case_bool_decide as Ho; cbn; [| cbn; left; congruence].
    rewrite lookup_insert_eq; intros [= <-].
    do 3 right. split_and!; try done. left. by exists u.
  - cbn; left; congruence.
  - unfold fire. destruct (timers st !! t) as [[k due]|] eqn:Ht;
      [| cbn; left; congruence].
    destruct (Z.leb_spec due now) as [Hd|Hd]; [| cbn; left; congruence].
    destruct (decide (k = seatId)) as [->|Hne];
      [| rewrite expiry_callback_frame by done; cbn; left; congruence].
    destruct (decide (status s = Locked)) as [Hl|Hl].
    + rewrite (expiry_callback_locked _ _ s) by done. cbn.
      rewrite lookup_insert_eq; intros [= <-].
      do 3 right. split_and!; try done. right; right. by exists t, now, due.
    + rewrite expiry_callback_not_locked; [cbn; left; congruence |].
      rewrite (seat_at_own _ _ s) by done. cbn. congruence.
Qed.

Lemma seat_edges_witness :
  mkSeat Booked JNull None None = mkSeat Locked alice (Some 61000) (Some 0%nat)
  \/ (exists userId now now',
        EConfirm "3" alice 2000 = ELock "3" userId now now' /\
        truthy userId = true /\
        (Locked = Available \/
         Locked = Locked /\ lapsed (Some 61000) now = true) /\
        mkSeat Booked JNull None None
          = mkSeat Locked userId (Some (now' + LOCK_TTL_MS)) (Some 1%nat))
  \/ (exists userId now,
        EConfirm "3" alice 2000 = EConfirm "3" userId now /\
        truthy userId = true /\ Locked = Locked /\ alice = userId /\
        expired (Some 61000) now = false /\
        mkSeat Booked JNull None None = mkSeat Booked JNull None None)
  \/ (Locked = Locked /\ mkSeat Booked JNull None None = fresh_seat /\
      ((exists userId, EConfirm "3" alice 2000 = EUnlock "3" userId /\
          truthy userId = true /\ alice = userId) \/
       (exists userId now, EConfirm "3" alice 2000 = EConfirm "3" userId now /\
          truthy userId = true /\ alice = userId /\
          expired (Some 61000) now = true) \/
       (exists t now due, EConfirm "3" alice 2000 = EFire t now /\
          timers st_locked !! t = Some ("3"%string, due) /\ due <= now))).
Proof.
  apply (seat_edges st_locked (EConfirm "3" alice 2000) "3"
           (mkSeat Locked alice (Some 61000) (Some 0%nat))
           (mkSeat Booked JNull None None)); by vm_compute.
Defined.

Lemma respects_step st seatId owner e t ev :
  reachable st ->
  seats st !! seatId = Some (mkSeat Locked owner (Some e) (Some t)) ->
  respects seatId owner e ev ->
  seats (step st ev) !! seatId = Some (mkSeat Locked owner (Some e) (Some t)).
Proof.
  intros Hr Hs Hq. pose proof (reachable_timers_ok _ Hr) as Hok.
  destruct ev as [k u now now'|k u now|k u| |t' now]; cbn in *.
  - destruct (decide (k = seatId)) as [->|Hne]; [| by rewrite lock_frame].
    destruct (truthy u) eqn:Hu; [| by rewrite lock_missing_user].
    rewrite (lock_locked_valid _ _ _ _ _ _ Hu Hs); try done.
    apply lapsed_false_future. auto.
  - destruct (decide (k = seatId)) as [->|Hne]; [| by rewrite confirm_frame].
    destruct (truthy u) eqn:Hu; [| by rewrite confirm_missing_user].
    rewrite (confirm_own _ _ _ _ _ Hu Hs). cbn.
    unfold strict_eq. rewrite bool_decide_eq_false_2; [done |].
    intros ->. by apply Hq.
  - destruct (decide (k = seatId)) as [->|Hne]; [| by rewrite unlock_frame].
    destruct (truthy u) eqn:Hu; [| by rewrite unlock_missing_user].
    rewrite (unlock_own _ _ _ _ Hu Hs). cbn.
    unfold strict_eq. rewrite bool_decide_eq_false_2; [done |].
    intros ->. by apply Hq.
  - done.
  - destruct (timers st !! t') as [[k due]|] eqn:Ht';
      [| unfold fire; by rewrite Ht'].
    destruct (decide (k = seatId)) as [->|Hne].
    + rewrite fire_not_due; [done |]. intros k due' Hk.
      pose proof (eq_trans (eq_sym Ht') Hk) as [= <- <-].
      destruct Hok as [H1 H2].
      destruct (H2 _ _ _ Ht') as (_ & s & Hs' & _ & Hts).
      rewrite Hs in Hs'. injection Hs' as <-. cbn in Hts.
      injection Hts as ->. specialize (H1 _ _ Hs). cbn in H1.
      destruct H1 as (t0 & e0 & [= <-] & [= <-] & Hp).
      pose proof (eq_trans (eq_sym Ht') Hp) as [= ->]. done.
    + unfold fire. rewrite Ht'. destruct (due <=? now); [| done].
      by rewrite expiry_callback_frame.
Qed.

(** X11. Mutual exclusion.  In a reachable state, while a seat is locked,
    nothing takes the lock away except the owner's own confirm or unlock,
    or an event at or after the expiry: a lock request made before the
    expiry (by anyone, the owner included), a confirm or unlock request by
    anyone else at any time, any request on another seat, a listing, and
    any timer run before the expiry leave the seat's owner, expiry and
    timer as they are — after one such event and after any run of them. *)
Theorem lock_holder_protected st seatId owner e t :
  reachable st ->
  seats st !! seatId = Some (mkSeat Locked owner (Some e) (Some t)) ->
  (forall ev, respects seatId owner e ev ->
     seats (step st ev) !! seatId
       = Some (mkSeat Locked owner (Some e) (Some t))) /\
  (forall es, Forall (respects seatId owner e) es ->
     seats (run st es) !! seatId
       = Some (mkSeat Locked owner (Some e) (Some t)) /\
     timers (run st es) !! t = Some (seatId, e)).
Proof.
  intros Hr Hs. split; [intros ev; by apply respects_step |].
  intros es Hq.
  assert (seats (run st es) !! seatId
            = Some (mkSeat Locked owner (Some e) (Some t))) as Hrun.
  { revert st Hr Hs. induction Hq as [|ev es Hev _ IH]; intros st Hr Hs;
      cbn; [done |].
    apply IH; [by constructor | by apply respects_step]. }
  split; [done |].
  destruct (reachable_timers_ok _ (reachable_run es _ Hr)) as [H1 _].
  specialize (H1 _ _ Hrun). cbn in H1.
  destruct H1 as (t0 & e0 & [= <-] & [= <-] & Hp). done.
Qed.

Lemma lock_holder_protected_witness :
  seats (run st_locked
           [ELock "3" alice 60999 60999; EConfirm "3" bob 70000;
            EUnlock "3" bob; EFire 0%nat 60999; ELock "4" bob 70000 70000])
    !! "3"%string = Some (mkSeat Locked alice (Some 61000) (Some 0%nat)).
Proof.
  destruct (lock_holder_protected st_locked "3" alice 61000 0%nat)
    as [_ H]; [| by vm_compute |].
  - apply (reachable_step init (ELock "3" alice 1000 1000)). constructor.
  - apply H.
    constructor; [intros _; lia |].
    constructor; [intros _; done |].
    constructor; [intros _; done |].
    constructor; [cbn; lia |].
    constructor; [intros [=] | constructor].
Defined.

(** X12. Round trip.  In a reachable state, locking an available seat and
    then releasing the lock — by the owner's unlock, by the owner's confirm
    at or after the expiry, or by the timer when it is due — gives back the
    seats and the pending timers of the start; only the counter of timer
    handles has advanced.  The three ways of releasing end in the same
    state. *)
Theorem lock_release_round_trip st seatId userId now now' s :
  reachable st -> truthy userId = true ->
  seats st !! seatId = Some s -> status s = Available ->
  let st1 := snd (lock seatId userId now now' st) in
  let back := mkState (seats st) (timers st) (S (next_timer st)) in
  unlock seatId userId st1 = (Ok200 None, back) /\
  (forall t, now' + LOCK_TTL_MS <= t ->
     confirm seatId userId t st1 = (Fail 400 Expired, back)) /\
  (forall t, now' + LOCK_TTL_MS <= t -> fire (next_timer st) t st1 = back).
Proof.
  intros Hr Hu Hs Ha st1 back.
  pose proof (reachable_available_fresh _ _ _ Hr Hs Ha) as ->.
  pose proof (reachable_next_timer_free _ Hr) as Hfree.
  set (locked := mkSeat Locked userId (Some (now' + LOCK_TTL_MS))
                   (Some (next_timer st))).
  assert (st1 = mkState (<[seatId := locked]> (seats st))
                  (<[next_timer st := (seatId, now' + LOCK_TTL_MS)]> (timers st))
                  (S (next_timer st))) as Hst1.
  { unfold st1. by rewrite (lock_available _ _ _ _ _ fresh_seat),
      (acquire_available _ _ _ _ fresh_seat). }
  assert (seats st1 !! seatId = Some locked) as Hs1
    by (rewrite Hst1; apply lookup_insert_eq).
  assert (mkState (<[seatId := fresh_seat]> (seats st1))
            (cancel (timer locked) (timers st1)) (next_timer st1) = back)
    as Hback.
  { rewrite Hst1. unfold back. cbn. f_equal.
    - rewrite insert_insert_eq. by apply insert_id.
    - rewrite delete_insert_eq. by apply delete_id. }
  split_and!.
  - rewrite (unlock_own _ _ _ locked) by done. cbn.
    unfold strict_eq. rewrite bool_decide_eq_true_2 by done. cbn.
    by rewrite <- Hback.
  - intros t Ht. rewrite (confirm_expired _ _ _ _ locked); try done.
    + by rewrite <- Hback.
    + apply expired_true. right. by eexists.
  - intros t Ht. unfold fire.
    assert (timers st1 !! next_timer st = Some (seatId, now' + LOCK_TTL_MS))
      as -> by (rewrite Hst1; apply lookup_insert_eq).
    destruct (Z.leb_spec (now' + LOCK_TTL_MS) t); [| lia].
    rewrite (expiry_callback_locked _ _ locked) by done. cbn.
    rewrite <- Hback. rewrite Hst1. cbn. by rewrite delete_delete_eq.
Qed.

Lemma lock_release_round_trip_witness :
  unlock "5" bob (snd (lock "5" bob 7 7 st_locked))
    = (Ok200 None, mkState (seats st_locked) (timers st_locked) 2%nat) /\
  fire 1%nat 60007 (snd (lock "5" bob 7 7 st_locked))
    = mkState (seats st_locked) (timers st_locked) 2%nat.
Proof.
  destruct (lock_release_round_trip st_locked "5" bob 7 7 fresh_seat)
    as (Hunlock & _ & Hfire); [| done | by vm_compute | done |].
  - apply (reachable_step init (ELock "3" alice 1000 1000)). constructor.
  - split; [exact Hunlock |]. apply Hfire. by vm_compute.
Defined.

(** X13. [releaseLock] is idempotent, in any state and for any id: running
    it a second time changes nothing. *)
Theorem releaseLock_idempotent seatId st :
  releaseLock seatId (releaseLock seatId st) = releaseLock seatId st.
Proof.
  destruct (seats st !! seatId) as [s|] eqn:Hs;
    [| by rewrite !(releaseLock_not_own st seatId Hs)].
  rewrite (releaseLock_own st seatId s Hs).
  rewrite (releaseLock_own _ _ (released s)) by (cbn; apply lookup_insert_eq).
  cbn. f_equal.
  - rewrite insert_insert_eq. f_equal. unfold released.
    by destruct (status s).
  - unfold released. by destruct (status s).
Qed.



(** * Properties of the card collection *)

Module CardsFacts.
Import Cards.

Lemma filter_keeps_all {A} (P : A -> Prop) `{!forall x, Decision (P x)}
    (l : list A) :
  Forall P l -> filter P l = l.
Proof.
  induction 1 as [|x l Hx _ IH]; [done |].
  by rewrite filter_cons_True, IH.
Qed.

(** With pairwise different ids, removing the element at an index removes
    exactly the cards that have its id. *)
Lemma delete_is_filter (l : list Card) i x :
  NoDup (id <$> l) -> l !! i = Some x ->
  delete i l = filter (fun y => id y <> id x) l.
Proof.
  revert i. induction l as [|a l IH]; intros i Hnd Hi; [done |].
  rewrite fmap_cons, NoDup_cons in Hnd. destruct Hnd as [Ha Hnd].
  destruct i as [|i]; cbn in Hi.
  - injection Hi as ->. rewrite filter_cons_False by (intros H; by apply H).
    cbn. symmetry. apply filter_keeps_all, Forall_forall. intros y Hy Heq.
    apply Ha. rewrite <- Heq. by apply list_elem_of_fmap_2.
  - rewrite filter_cons_True.
    + cbn. f_equal. by apply IH.
    + intros Heq. apply Ha. rewrite Heq.
      apply list_elem_of_fmap_2. by eapply list_elem_of_lookup_2.
Qed.

Lemma ids_injective (l : list Card) x y :
  NoDup (id <$> l) -> x ∈ l -> y ∈ l -> id x = id y -> x = y.
Proof.
  induction l as [|a l IH]; intros Hnd Hx Hy Heq; [by apply elem_of_nil in Hx |].
  rewrite fmap_cons, NoDup_cons in Hnd. destruct Hnd as [Ha Hnd].
  apply elem_of_cons in Hx as [-> | Hx], Hy as [-> | Hy]; try done.
  - exfalso. apply Ha. rewrite Heq. by apply list_elem_of_fmap_2.
  - exfalso. apply Ha. rewrite <- Heq. by apply list_elem_of_fmap_2.
  - by apply IH.
Qed.

Lemma ids_ok_init : ids_ok init.
Proof.
  unfold ids_ok. split_and!.
  - compute_done.
  - repeat constructor; cbn; lia.
  - cbn. lia.
Qed.

Lemma ids_ok_step st e : ids_ok st -> ids_ok (step st e).
Proof.
  unfold ids_ok. intros (Hnd & Hlt & H1).
  destruct e as [|p|su va|p]; cbn; try done.
  - unfold get_card. by destruct (list_find _ _) as [[]|].
  - unfold post_card. destruct (negb _ || negb _); [done |]. cbn.
    split_and!.
    + rewrite fmap_app. apply NoDup_app. split_and!; [done | | ].
      * intros n Hn ->%list_elem_of_singleton.
        apply list_elem_of_fmap in Hn as (c & Hc & Hin).
        rewrite Forall_forall in Hlt. specialize (Hlt _ Hin). cbn in Hc. lia.
      * cbn. apply NoDup_singleton.
    + apply Forall_app. split.
      * eapply Forall_impl; [done |]. cbn. intros c ?. lia.
      * repeat constructor; cbn; lia.
    + lia.
  - unfold delete_card. destruct (list_find _ _) as [[i c]|]; [| done]. cbn.
    split_and!; [| by apply Forall_delete | done].
    rewrite list_fmap_delete.
    apply (sublist_NoDup _ _ Hnd), sublist_delete.
Qed.

Lemma reachable_ids_ok st : reachable st -> ids_ok st.
Proof. induction 1; [apply ids_ok_init | by apply ids_ok_step]. Qed.

Lemma get_card_found st n c :
  get_card (Some n) st = (CardFound c, st) -> c ∈ cards st /\ id c = n.
Proof.
  unfold get_card. destruct (list_find _ _) as [[i c']|] eqn:Hf; [| done].
  intros [= ->]. apply list_find_Some in Hf as (Hi & Hid & _).
  split; [by eapply list_elem_of_lookup_2 |]. unfold has_id in Hid. congruence.
Qed.

Lemma get_card_found_iff st n c :
  ids_ok st ->
  get_card (Some n) st = (CardFound c, st) <-> c ∈ cards st /\ id c = n.
Proof.
  intros (Hnd & _). split; [apply get_card_found |].
  intros [Hin Hid]. unfold get_card.
  destruct (list_find _ _) as [[i c']|] eqn:Hf.
  - apply list_find_Some in Hf as (Hi & Hid' & _). unfold has_id in Hid'.
    assert (c' = c) as ->; [| done].
    apply (ids_injective (cards st)); try done;
      [by eapply list_elem_of_lookup_2 | congruence].
  - rewrite list_find_None, Forall_forall in Hf. exfalso.
    apply (Hf c Hin). unfold has_id. by rewrite Hid.
Qed.

Lemma get_card_not_found_iff st n :
  get_card (Some n) st = (CardNotFound, st) <->
  forall c, c ∈ cards st -> id c <> n.
Proof.
  unfold get_card. destruct (list_find _ _) as [[i c']|] eqn:Hf.
  - split; [done |]. intros Hall. exfalso.
    apply list_find_Some in Hf as (Hi & Hid & _). unfold has_id in Hid.
    apply (Hall c'); [by eapply list_elem_of_lookup_2 | congruence].
  - split; [| done]. intros _ c Hin Hid.
    rewrite list_find_None, Forall_forall in Hf.
    apply (Hf c Hin). unfold has_id. by rewrite Hid.
Qed.

Lemma delete_card_not_found st p :
  get_card p st = (CardNotFound, st) -> delete_card p st = (CardNotFound, st).
Proof.
  unfold get_card, delete_card.
  by destruct (list_find (has_id p) (cards st)) as [[i c]|].
Qed.

(** X15. In every reachable state of the card collection the ids of the
    cards are pairwise different, at least 1, and below [nextId]: an id is
    never handed out twice, deletions included. *)
Theorem cards_ids_unique st :
  reachable st ->
  NoDup (id <$> cards st) /\
  Forall (fun c => 1 <= id c < nextId st) (cards st) /\
  (forall c c', c ∈ cards st -> c' ∈ cards st -> id c = id c' -> c = c').
Proof.
  intros (Hnd & Hlt & _)%reachable_ids_ok. split_and!; try done.
  intros c c'. by apply ids_injective.
Qed.

Lemma cards_ids_unique_witness :
  NoDup (id <$> cards (run init [EPost (JStr "Clubs") (JStr "Ten");
                                 EDelete (Some 2);
                                 EPost (JStr "Hearts") (JStr "Two")])).
Proof.
  apply cards_ids_unique.
  repeat apply reachable_step. apply reachable_init.
Defined.

(** X16. In every reachable state, [GET /cards/:id] answers with a card
    exactly when that card is in the collection under the parsed id, and
    with 404 exactly when no card has that id — always so when the
    parameter does not parse to a number; it never changes the store. *)
Theorem get_card_finds st n :
  reachable st ->
  (forall c, get_card (Some n) st = (CardFound c, st) <->
     c ∈ cards st /\ id c = n) /\
  (get_card (Some n) st = (CardNotFound, st) <->
     forall c, c ∈ cards st -> id c <> n) /\
  get_card None st = (CardNotFound, st) /\
  (forall p, snd (get_card p st) = st).
Proof.
  intros Hok%reachable_ids_ok. split_and!.
  - intros c. by apply get_card_found_iff.
  - apply get_card_not_found_iff.
  - unfold get_card.
    destruct (list_find _ _) as [[i c]|] eqn:Hf; [| done].
    by apply list_find_Some in Hf as (_ & ? & _).
  - intros p. unfold get_card. by destruct (list_find _ _) as [[]|].
Qed.

Lemma get_card_finds_witness :
  get_card (Some 2) init
    = (CardFound (mkCard 2 (JStr "Spades") (JStr "King")), init) /\
  get_card (Some 7) init = (CardNotFound, init).
Proof.
  destruct (get_card_finds init 2 reachable_init) as (Hfound & _).
  destruct (get_card_finds init 7 reachable_init) as (_ & Hnone & _).
  split.
  - apply Hfound. split; [compute_done | done].
  - apply Hnone. intros c Hc. revert c Hc. apply Forall_forall.
    repeat constructor; done.
Defined.

(** X17. [POST /cards] creates a card exactly when [suit] and [value] are
    both truthy; otherwise it answers 400 and changes nothing, [nextId]
    included.  In a reachable state the new card gets the id [nextId], is
    appended at the end, and is what [GET /cards/:id] then returns for that
    id, while every card that could be fetched before is still fetched
    under its id. *)
Theorem post_card_round_trip st su va :
  reachable st ->
  (truthy su = true -> truthy va = true ->
     let c := mkCard (nextId st) su va in
     let st' := mkStore (cards st ++ [c]) (nextId st + 1) in
     post_card su va st = (CardCreated c, st') /\
     get_card (Some (nextId st)) st' = (CardFound c, st') /\
     (forall n c0, get_card (Some n) st = (CardFound c0, st) ->
        get_card (Some n) st' = (CardFound c0, st'))) /\
  (truthy su = false \/ truthy va = false ->
     post_card su va st = (FieldsRequired, st)).
Proof.
  intros Hr. split.
  - intros Hsu Hva c st'.
    assert (post_card su va st = (CardCreated c, st')) as Hpost
      by (unfold post_card; by rewrite Hsu, Hva).
    assert (ids_ok st') as Hok'.
    { replace st' with (step st (EPost su va)) by (cbn; by rewrite Hpost).
      by apply ids_ok_step, reachable_ids_ok. }
    split_and!; [done | |].
    + apply get_card_found_iff; [done |]. split; [| done].
      apply elem_of_app. right. by apply list_elem_of_singleton.
    + intros n c0 [Hin Hid]%get_card_found.
      apply get_card_found_iff; [done |]. split; [| done].
      apply elem_of_app. by left.
  - intros [Hsu | Hva]; unfold post_card.
    + by rewrite Hsu.
    + rewrite Hva. by rewrite orb_true_r.
Qed.

Lemma post_card_round_trip_witness :
  get_card (Some 4) (snd (post_card (JStr "Clubs") (JStr "Ten") init))
    = (CardFound (mkCard 4 (JStr "Clubs") (JStr "Ten")),
       snd (post_card (JStr "Clubs") (JStr "Ten") init)) /\
  post_card (JStr "Clubs") (JStr "") init = (FieldsRequired, init).
Proof.
  destruct (post_card_round_trip init (JStr "Clubs") (JStr "Ten")
              reachable_init) as [Hgood _].
  destruct (post_card_round_trip init (JStr "Clubs") (JStr "")
              reachable_init) as [_ Hbad].
  split.
  - destruct (Hgood eq_refl eq_refl) as (Hpost & Hget & _).
    rewrite Hpost. exact Hget.
  - apply Hbad. by right.
Defined.

(** X18. In a reachable state, when [DELETE /cards/:id] answers with a
    removed card, that card was the one in the collection with the parsed
    id — the one [GET /cards/:id] returned — and the collection afterwards
    is the old one without it, the other cards in their order; the id is
    then answered 404 by GET and by a second DELETE, the other ids are
    fetched as before, and [nextId] is unchanged.  When no card has the id
    the answer is 404 and nothing changes. *)
Theorem delete_card_removes st n :
  reachable st ->
  (forall c st', delete_card (Some n) st = (CardRemoved c, st') ->
     get_card (Some n) st = (CardFound c, st) /\
     st' = mkStore (filter (fun c' => id c' <> n) (cards st)) (nextId st) /\
     S (length (cards st')) = length (cards st) /\
     get_card (Some n) st' = (CardNotFound, st') /\
     delete_card (Some n) st' = (CardNotFound, st') /\
     (forall m c0, m <> n ->
        get_card (Some m) st' = (CardFound c0, st') <->
        get_card (Some m) st = (CardFound c0, st))) /\
  ((forall c, c ∈ cards st -> id c <> n) ->
     delete_card (Some n) st = (CardNotFound, st)).
Proof.
  intros Hr. pose proof (reachable_ids_ok _ Hr) as Hok. split.
  - intros c st' Hdel.
    assert (ids_ok st') as Hok'.
    { replace st' with (step st (EDelete (Some n))) by (cbn; by rewrite Hdel).
      by apply ids_ok_step. }
    unfold delete_card in Hdel.
    destruct (list_find _ _) as [[i c']|] eqn:Hf; [| done].
    injection Hdel as -> <-.
    pose proof Hf as (Hi & Hid & _)%list_find_Some.
    unfold has_id in Hid. injection Hid as ->.
    pose proof Hok as (Hnd & _).
    assert (delete i (cards st) = filter (fun c' => id c' <> id c) (cards st))
      as Hfilter by (by apply delete_is_filter).
    assert (get_card (Some (id c))
              (mkStore (delete i (cards st)) (nextId st))
            = (CardNotFound, mkStore (delete i (cards st)) (nextId st)))
      as Hgone.
    { apply get_card_not_found_iff. cbn. rewrite Hfilter.
      by intros c0 [? _]%list_elem_of_filter. }
    split_and!.
    + unfold get_card. by rewrite Hf.
    + by rewrite Hfilter.
    + cbn. rewrite length_delete by (by eexists).
      apply lookup_lt_Some in Hi. lia.
    + done.
    + by apply delete_card_not_found.
    + intros m c0 Hm.
      rewrite !get_card_found_iff by done. cbn.
      rewrite Hfilter, list_elem_of_filter. split; [by intros [[_ ?] ?] |].
      intros [Hin Hid]. split_and!; [cbn; congruence | done | done].
  - intros Hnone. by apply delete_card_not_found, get_card_not_found_iff.
Qed.

Lemma delete_card_removes_witness :
  get_card (Some 2) (snd (delete_card (Some 2) init))
    = (CardNotFound, snd (delete_card (Some 2) init)) /\
  delete_card (Some 9) init = (CardNotFound, init).
Proof.
  destruct (delete_card_removes init 2 reachable_init) as [Hdel _].
  destruct (delete_card_removes init 9 reachable_init) as [_ Hnone].
  split.
  - destruct (Hdel (mkCard 2 (JStr "Spades") (JStr "King"))
                (snd (delete_card (Some 2) init)) eq_refl)
      as (_ & _ & _ & Hgone & _).
    exact Hgone.
  - apply Hnone. apply Forall_forall. repeat constructor; done.
Defined.

Lemma step_cards_from st e c :
  c ∈ cards (step st e) -> c ∈ cards st \/ id c = nextId st.
Proof.
  destruct e as [|p|su va|p]; cbn; auto.
  - unfold get_card. destruct (list_find _ _) as [[]|]; auto.
  - unfold post_card. destruct (negb _ || negb _); cbn; [auto |].
    intros [? | ->%list_elem_of_singleton]%elem_of_app; auto.
  - unfold delete_card. destruct (list_find _ _) as [[i c']|]; cbn; [| auto].
    intros ?%list_elem_of_delete_inv. auto.
Qed.

Lemma step_nextId st e : nextId st <= nextId (step st e).
Proof.
  destruct e as [|p|su va|p]; cbn; try lia.
  - unfold get_card. destruct (list_find _ _) as [[]|]; cbn; lia.
  - unfold post_card. destruct (negb _ || negb _); cbn; lia.
  - unfold delete_card. destruct (list_find _ _) as [[]|]; cbn; lia.
Qed.

Lemma run_cards_from es st c :
  c ∈ cards (run st es) -> c ∈ cards st \/ nextId st <= id c.
Proof.
  revert st. induction es as [|e es IH]; intros st; cbn; [auto |].
  intros [Hin | Hge]%IH.
  - apply step_cards_from in Hin as [? | ->]; [auto | right; lia].
  - right. pose proof (step_nextId st e). lia.
Qed.

(** X19. Ids are never reused.  [nextId] never decreases, and whatever
    requests follow, every card in the collection either was there before
    or has an id of at least the [nextId] of before.  Hence, in a reachable
    state, once a card is deleted its id is answered 404 for good: no later
    request brings a card with that id back. *)
Theorem ids_never_reused st :
  (forall es, nextId st <= nextId (run st es)) /\
  (forall es c, c ∈ cards (run st es) ->
     c ∈ cards st \/ nextId st <= id c) /\
  (reachable st -> forall n c st' es,
     delete_card (Some n) st = (CardRemoved c, st') ->
     get_card (Some n) (run st' es) = (CardNotFound, run st' es)).
Proof.
  split_and!.
  - intros es. revert st. induction es as [|e es IH]; intros st; [cbn; lia |].
    etransitivity; [apply (step_nextId st e) | apply IH].
  - intros es c. apply run_cards_from.
  - intros Hr n c st' es Hdel.
    destruct (reachable_ids_ok _ Hr) as (Hnd & Hlt & _).
    unfold delete_card in Hdel.
    destruct (list_find _ _) as [[i c']|] eqn:Hf; [| done].
    injection Hdel as -> <-.
    pose proof Hf as (Hi & Hid & _)%list_find_Some.
    unfold has_id in Hid. injection Hid as ->.
    apply get_card_not_found_iff. intros c0 Hin Hid.
    apply run_cards_from in Hin as [Hin | Hge]; cbn in *.
    + rewrite (delete_is_filter _ _ c) in Hin by done.
      apply list_elem_of_filter in Hin as [? _]. done.
    + rewrite Forall_forall in Hlt.
      specialize (Hlt c (list_elem_of_lookup_2 _ _ _ Hi)). lia.
Qed.

Lemma ids_never_reused_witness :
  get_card (Some 2)
    (run (snd (delete_card (Some 2) init))
       [EPost (JStr "Clubs") (JStr "Ten"); EDelete (Some 1);
        EPost (JStr "Hearts") (JStr "Two")])
  = (CardNotFound,
     run (snd (delete_card (Some 2) init))
       [EPost (JStr "Clubs") (JStr "Ten"); EDelete (Some 1);
        EPost (JStr "Hearts") (JStr "Two")]).
Proof.
  destruct (ids_never_reused init) as (_ & _ & H).
  apply (H reachable_init 2 (mkCard 2 (JStr "Spades") (JStr "King"))).
  reflexivity.
Defined.

End CardsFacts.
